(** * SBP finite-difference operators: periodic and upwind builders

    A shallow embedding of [python/periodic.py] and [python/upwind.py].

    Conventions of the embedding.
    - NumPy's float64 arithmetic is modelled by exact arithmetic on the
      real numbers [R]; a literal denotes the number it spells.
    - A one-dimensional array is a [list R]; a two-dimensional array, dense
      or sparse, is the list of its rows.
    - Python exceptions are modelled by the [result] monad.  Indexing follows
      Python: a negative index counts from the end, an index outside
      [-n, n) raises [IndexError].
    - [np.linalg.inv] is a parameter of the upwind builders: what is proved
      about them holds for every inversion routine.

    The file has three parts: the arrays and the two source files, the
    vocabulary in which the properties are stated, and the lemmas and
    theorems. *)

From Stdlib Require Import Reals Lra Lia ZArith List.
From stdpp Require Import base list.

Open Scope Z_scope.
Open Scope R_scope.

(** ** Exceptions *)

Inductive exn : Set :=
| NotImplementedError   (* raise NotImplementedError('Order not implemented.') *)
| IndexError            (* index out of bounds *)
| ValueError            (* negative dimension, shape mismatch *)
| ZeroDivisionError     (* float division by zero *)
| LinAlgError.          (* singular matrix *)

Inductive result (A : Type) : Type :=
| Ok (a : A)
| Raise (e : exn).
Arguments Ok {A} a.
Arguments Raise {A} e.

#[global] Instance result_ret : MRet result := fun A a => Ok a.
#[global] Instance result_bind : MBind result := fun A B f r =>
  match r with
  | Ok a => f a
  | Raise e => Raise e
  end.
#[global] Instance result_fmap : FMap result := fun A B f r =>
  match r with
  | Ok a => Ok (f a)
  | Raise e => Raise e
  end.

Definition returns {A} (r : result A) : Prop := exists a, r = Ok a.

(** ** Arrays *)

Abbreviation vec := (list R).
Abbreviation matrix := (list (list R)).

Definition entry (A : matrix) (i j : nat) : R := nth j (nth i A []) 0.

Definition mk_matrix (n k : nat) (f : nat -> nat -> R) : matrix :=
  map (fun i => map (fun j => f i j) (seq 0 k)) (seq 0 n).

Definition shape (n k : nat) (A : matrix) : Prop :=
  length A = n /\ Forall (fun row => length row = k) A.

Definition Rsum (l : list R) : R := fold_right Rplus 0 l.
Definition sum_n (f : nat -> R) (n : nat) : R := Rsum (map f (seq 0 n)).

Module Py.

(** [range(n)] *)
Definition range (n : Z) : list Z := map Z.of_nat (seq 0 (Z.to_nat n)).

(** [for i in xs: s = body(i, s)] *)
Fixpoint for_each {S : Type} (xs : list Z) (body : Z -> S -> result S) (s : S)
  : result S :=
  match xs with
  | [] => Ok s
  | i :: xs' => s' ← body i s; for_each xs' body s'
  end.

(** Position addressed by the index [i] in a sequence of length [n]. *)
Definition index (n : nat) (i : Z) : result nat :=
  if ((0 <=? i) && (i <? Z.of_nat n))%Z then Ok (Z.to_nat i)
  else if ((- Z.of_nat n <=? i) && (i <? 0))%Z then Ok (Z.to_nat (Z.of_nat n + i))
  else Raise IndexError.

(** [a[i]] *)
Definition getitem (a : vec) (i : Z) : result R :=
  k ← index (length a) i; Ok (nth k a 0).

(** [a[i] = x] *)
Definition setitem (a : vec) (i : Z) (x : R) : result vec :=
  k ← index (length a) i; Ok (<[k := x]> a).

End Py.

Module Np.

(** [np.zeros(m)], [np.ones(m)] *)
Definition zeros (m : Z) : result vec :=
  if (m <? 0)%Z then Raise ValueError else Ok (replicate (Z.to_nat m) 0).
Definition ones (m : Z) : result vec :=
  if (m <? 0)%Z then Raise ValueError else Ok (replicate (Z.to_nat m) 1).

(** [np.eye(m)] *)
Definition eye (m : Z) : result matrix :=
  if (m <? 0)%Z then Raise ValueError
  else Ok (mk_matrix (Z.to_nat m) (Z.to_nat m)
             (fun i j => if (i =? j)%nat then 1 else 0)).

(** [np.flip(a)] on a one-dimensional array *)
Definition flip (a : vec) : vec := rev a.

(** [np.roll(a, shift)]: the element at position [k] moves to
    position [(k + shift) mod n]. *)
Definition roll (a : vec) (shift : Z) : vec :=
  let n := length a in
  let k := (n - Z.to_nat (shift mod Z.of_nat n))%nat in
  drop k a ++ take k a.

(** [-a] *)
Definition neg (a : vec) : vec := map Ropp a.

(** [x * A], [A - B], [A + B], [-A] on matrices of one shape *)
Definition scale (x : R) (A : matrix) : matrix := map (map (Rmult x)) A.
Definition sub (A B : matrix) : matrix := zip_with (zip_with Rminus) A B.
Definition add (A B : matrix) : matrix := zip_with (zip_with Rplus) A B.
Definition mneg (A : matrix) : matrix := map (map Ropp) A.

(** [A.T] *)
Definition transpose (A : matrix) : matrix :=
  mk_matrix (length (hd [] A)) (length A) (fun i j => entry A j i).

(** [A @ x] for a vector [x], [A @ B] for a matrix [B] *)
Definition dot (x y : vec) : R := Rsum (zip_with Rmult x y).
Definition matvec (A : matrix) (x : vec) : vec := map (fun row => dot row x) A.
Definition matmul (A B : matrix) : matrix :=
  map (fun row => map (dot row) (transpose B)) A.

(** [np.diag(c)] for a one-dimensional array [c] *)
Definition diag (c : vec) : matrix :=
  mk_matrix (length c) (length c)
    (fun i j => if (i =? j)%nat then nth i c 0 else 0).

(** [np.diag(v, k)]: the square matrix of size [len(v) + |k|] with [v] on
    its [k]-th diagonal. *)
Definition diag_k (v : vec) (k : Z) : matrix :=
  let n := (length v + Z.abs_nat k)%nat in
  mk_matrix n n
    (fun i j => if (Z.of_nat j - Z.of_nat i =? k)%Z
                then nth (Nat.min i j) v 0 else 0).

(** [np.fliplr(A)], [np.flipud(A)] *)
Definition fliplr (A : matrix) : matrix := map (@rev R) A.
Definition flipud (A : matrix) : matrix := rev A.

(** [np.tensordot(x, y, axes=0)]: the outer product. *)
Definition outer (x y : vec) : matrix :=
  mk_matrix (length x) (length y) (fun i j => nth i x 0 * nth j y 0).

Definition nrows (A : matrix) : nat := length A.
Definition ncols (A : matrix) : nat := length (hd [] A).

Definition has_shape (n k : nat) (A : matrix) : bool :=
  (length A =? n)%nat && forallb (fun row => (length row =? k)%nat) A.

(** [A[0:b, 0:b]] and [A[-b:, -b:]]: a slice is clipped to the array. *)
Definition get_lead (b : nat) (A : matrix) : matrix :=
  mk_matrix (Nat.min b (nrows A)) (Nat.min b (ncols A)) (entry A).

(** [A[0:b, 0:b] = V] and [A[-b:, -b:] = V]: the value must have the
    shape of the slice (the values assigned here are never broadcast). *)
Definition set_lead (b : nat) (A V : matrix) : result matrix :=
  let nr := Nat.min b (nrows A) in
  let nc := Nat.min b (ncols A) in
  if has_shape nr nc V then
    Ok (mk_matrix (nrows A) (ncols A)
          (fun i j => if ((i <? nr) && (j <? nc))%nat
                      then entry V i j else entry A i j))
  else Raise ValueError.

Definition set_trail (b : nat) (A V : matrix) : result matrix :=
  let nr := Nat.min b (nrows A) in
  let nc := Nat.min b (ncols A) in
  let r0 := (nrows A - nr)%nat in
  let c0 := (ncols A - nc)%nat in
  if has_shape nr nc V then
    Ok (mk_matrix (nrows A) (ncols A)
          (fun i j => if ((r0 <=? i) && (c0 <=? j))%nat
                      then entry V (i - r0) (j - c0) else entry A i j))
  else Raise ValueError.

End Np.

Module Scipy.

(** [scipy.linalg.toeplitz(c, r)]: first column [c], first row [r];
    the entry at [(i, j)] is [c[i-j]] when [i >= j] and [r[j-i]] otherwise. *)
Definition toeplitz (c r : vec) : matrix :=
  mk_matrix (length c) (length r)
    (fun i j => if (j <=? i)%nat then nth (i - j) c 0 else nth (j - i) r 0).

(** [scipy.sparse.csc_matrix(A)]: the same matrix in sparse storage. *)
Definition csc_matrix (A : matrix) : matrix := A.

End Scipy.

(** ** [periodic.py] *)

Module Periodic.

(** The block shared by every periodic builder:
<<
  v = np.zeros(m)
  for i in range(r+1):
      v[i] = d[i+l]
  for i in range(l):
      v[m-i-1] = d[l-i-1]
>> *)
Definition stencil_vector (d : vec) (l r m : Z) : result vec :=
  v ← Np.zeros m;
  v ← Py.for_each (Py.range (r + 1))
        (fun i v => x ← Py.getitem d (i + l); Py.setitem v i x) v;
  Py.for_each (Py.range l)
        (fun i v => x ← Py.getitem d (l - i - 1); Py.setitem v (m - i - 1) x) v.

(** [splg.toeplitz(np.roll(np.flip(v),1),v)] *)
Definition circulant (v : vec) : matrix :=
  Scipy.toeplitz (Np.roll (Np.flip v) 1) v.

(** The interior stencil selected by [order], with [l] and [r]. *)
Definition stencil (order : Z) : result (vec * Z * Z) :=
  if (order =? 2)%Z then Ok ([-0.5; 0; 0.5], 1%Z, 1%Z)
  else if (order =? 4)%Z then Ok ([1/12; -2/3; 0; 2/3; -1/12], 2%Z, 2%Z)
  else if (order =? 6)%Z then
    Ok ([-1/60; 3/20; -3/4; 0; 3/4; -3/20; 1/60], 3%Z, 3%Z)
  else if (order =? 8)%Z then
    Ok ([1/280; -4/105; 1/5; -4/5; 0; 4/5; -1/5; 4/105; -1/280], 4%Z, 4%Z)
  else if (order =? 10)%Z then
    Ok ([-1/1260; 5/504; -5/84; 5/21; -5/6; 0; 5/6; -5/21; 5/84; -5/504; 1/1260],
        5%Z, 5%Z)
  else if (order =? 12)%Z then
    Ok ([1/5544; -1/385; 1/56; -5/63; 15/56; -6/7; 0;
         6/7; -15/56; 5/63; -1/56; 1/385; -1/5544], 6%Z, 6%Z)
  else Raise NotImplementedError.

(** The dissipation stencil selected by [order], with [l], [r] and [a]. *)
Definition dissipation (order : Z) : result (vec * Z * Z * R) :=
  if (order =? 2)%Z then Ok ([1; -2; 1], 1%Z, 1%Z, 0.5)
  else if (order =? 4)%Z then
    Ok (Np.neg [1; -4; 6; -4; 1], 2%Z, 2%Z, 1/12)
  else if (order =? 6)%Z then
    Ok ([1; -6; 15; -20; 15; -6; 1], 3%Z, 3%Z, 1/60)
  else if (order =? 8)%Z then
    Ok (Np.neg [1; -8; 28; -56; 70; -56; 28; -8; 1], 4%Z, 4%Z, 1/280)
  else if (order =? 10)%Z then
    Ok ([1; -10; 45; -120; 210; -252; 210; -120; 45; -10; 1], 5%Z, 5%Z, 1/1260)
  else if (order =? 12)%Z then
    Ok (Np.neg [1; -12; 66; -220; 495; -792; 924; -792; 495; -220; 66; -12; 1],
        6%Z, 6%Z, 1/5544)
  else Raise NotImplementedError.

Definition periodic_expl (m : Z) (h : R) (order : Z) (use_AD : bool)
  : result (matrix * matrix) :=
  '(d, l, r) ← stencil order;
  v ← stencil_vector d l r m;
  let Q := Scipy.csc_matrix (circulant v) in
  E ← Np.eye m;
  let H := Scipy.csc_matrix (Np.scale h E) in
  if use_AD then
    '(d, l, r, a) ← dissipation order;
    v ← stencil_vector d l r m;
    let S := Scipy.csc_matrix (Np.scale a (circulant v)) in
    Ok (H, Np.sub Q S)
  else Ok (H, Q).

Definition h0 : R := 4203267613564094932432577824954/7049220443079284250976145948443.
Definition h1 : R := 22618790744689935699264926210401/84590645316951411011713751381316.
Definition h2 : R := -2209778222820418388602425303685/42295322658475705505856875690658.
Definition h3 : R := -1581945765/75409415044.
Definition h4 : R := 228992488/33235651987.
Definition h5 : R := 27214243/33751459947.

Definition q1 : R := 9607266784889201296177/19560081711822931675052.
Definition q2 : R := 8866705546306148289391/97800408559114658375260.
Definition q3 : R := -19659090145677941034997/293401225677343975125780.
Definition q4 : R := 127051314/37983174851.
Definition q5 : R := 389910724/128741750713.

Definition periodic_imp (m : Z) (h : R) (use_AD : bool)
  : result (matrix * matrix) :=
  (* Q *)
  let l := 5%Z in
  let r := 5%Z in
  let d := [-q5; -q4; -q3; -q2; -q1; 0; q1; q2; q3; q4; q5] in
  v ← stencil_vector d l r m;
  let Q := Scipy.csc_matrix (circulant v) in
  (* H *)
  let l := 5%Z in
  let r := 5%Z in
  let d := [h5; h4; h3; h2; h1; h0; h1; h2; h3; h4; h5] in
  v ← stencil_vector d l r m;
  let H := Scipy.csc_matrix (Np.scale h (circulant v)) in
  if use_AD then
    let d := Np.neg [1; -12; 66; -220; 495; -792; 924; -792; 495; -220; 66; -12; 1] in
    let l := 6%Z in
    let r := 6%Z in
    let a := 1/5544 in
    v ← stencil_vector d l r m;
    let S := Scipy.csc_matrix (Np.scale a (circulant v)) in
    Ok (H, Np.sub Q S)
  else Ok (H, Q).

(** The closure [M_fun] of [periodic_variable_wide]:
    [-1/h*Q@C@Q] is [(((-1)/h)*Q)@C)@Q]. *)
Definition M_fun (h : R) (Q : matrix) (c : vec) : result matrix :=
  let C := Np.diag c in
  if Req_dec_T h 0 then Raise ZeroDivisionError
  else if negb (length c =? length Q)%nat then Raise ValueError
  else Ok (Np.matmul (Np.matmul (Np.scale (-1 / h) Q) C) Q).

Definition periodic_variable_wide (m : Z) (h : R) (order : Z)
  : result (vec -> result matrix) :=
  '(H, Q) ← periodic_expl m h order false;
  Ok (M_fun h Q).

End Periodic.

(** ** [upwind.py] *)

Section Upwind.

(** [np.linalg.inv]: the inverse of a square matrix, [LinAlgError] when
    it is singular.  The builders are verified for any such function. *)
Variable linalg_inv : matrix -> result matrix.

Definition Qu_3rd : matrix :=
  [[-0.847e3/0.37560e5;
    0.79604458492699e14/0.119214944358240e15;
    -0.1643521867663e13/0.14901868044780e14;
    -0.4160444549287e13/0.119214944358240e15];
   [-0.22671019561497e14/0.39738314786080e14;
    -0.6023e4/0.37560e5;
    0.91628011326497e14/0.119214944358240e15;
    -0.749671686919e12/0.19869157393040e14];
   [0.63495586071e11/0.1241822337065e13;
    -0.16644840223051e14/0.39738314786080e14;
    -0.4311e4/0.12520e5;
    0.104757273135509e15/0.119214944358240e15];
   [0.4998377065543e13/0.119214944358240e15;
    -0.5276507651527e13/0.59607472179120e14;
    -0.12476888349687e14/0.39738314786080e14;
    -0.5919e4/0.12520e5]].

Definition Qu_5th : matrix :=
  [[-0.1e1/0.120e3;
    0.941e3/0.1440e4;
    -0.47e2/0.360e3;
    -0.7e1/0.480e3];
   [-0.869e3/0.1440e4;
    -0.11e2/0.120e3;
    0.25e2/0.32e2;
    -0.43e2/0.360e3];
   [0.29e2/0.360e3;
    -0.17e2/0.32e2;
    -0.29e2/0.120e3;
    0.1309e4/0.1440e4];
   [0.1e1/0.32e2;
    -0.11e2/0.360e3;
    -0.661e3/0.1440e4;
    -0.13e2/0.40e2]].

Definition Qu_7th : matrix :=
  [[-0.265e3/0.300272e6;
    0.1587945773e10/0.2432203200e10;
    -0.1926361e7/0.25737600e8;
    -0.84398989e8/0.810734400e9;
    0.48781961e8/0.4864406400e10;
    0.3429119e7/0.202683600e9];
   [-0.1570125773e10/0.2432203200e10;
    -0.26517e5/0.1501360e7;
    0.240029831e9/0.486440640e9;
    0.202934303e9/0.972881280e9;
    0.118207e6/0.13512240e8;
    -0.231357719e9/0.4864406400e10];
   [0.1626361e7/0.25737600e8;
    -0.206937767e9/0.486440640e9;
    -0.61067e5/0.750680e6;
    0.49602727e8/0.81073440e8;
    -0.43783933e8/0.194576256e9;
    0.51815011e8/0.810734400e9];
   [0.91418989e8/0.810734400e9;
    -0.53314099e8/0.194576256e9;
    -0.33094279e8/0.81073440e8;
    -0.18269e5/0.107240e6;
    0.440626231e9/0.486440640e9;
    -0.365711063e9/0.1621468800e10];
   [-0.62551961e8/0.4864406400e10;
    0.799e3/0.35280e5;
    0.82588241e8/0.972881280e9;
    -0.279245719e9/0.486440640e9;
    -0.346583e6/0.1501360e7;
    0.2312302333e10/0.2432203200e10];
   [-0.3375119e7/0.202683600e9;
    0.202087559e9/0.4864406400e10;
    -0.11297731e8/0.810734400e9;
    0.61008503e8/0.1621468800e10;
    -0.1360092253e10/0.2432203200e10;
    -0.10677e5/0.42896e5]].

Definition Hw_3rd : vec :=
  [0.4347899357e10/0.12695947216e11;
   0.12032349023e11/0.9521960412e10;
   0.32831414215e11/0.38087841648e11;
   0.6550489565e10/0.6347973608e10].

Definition Hw_5th : vec :=
  [0.251e3/0.720e3;
   0.299e3/0.240e3;
   0.211e3/0.240e3;
   0.739e3/0.720e3].

Definition Hw_7th : vec :=
  [0.19087e5/0.60480e5;
   0.84199e5/0.60480e5;
   0.18869e5/0.30240e5;
   0.37621e5/0.30240e5;
   0.55031e5/0.60480e5;
   0.61343e5/0.60480e5].

(** [e_l] and [e_r] *)
Definition boundary_vectors (m : Z) : result (vec * vec) :=
  e_l ← Np.zeros m;
  e_l ← Py.setitem e_l 0 1;
  e_r ← Np.zeros m;
  e_r ← Py.setitem e_r (-1) 1;
  Ok (e_l, e_r).

(** The norm matrix: the identity with its first and last [b] diagonal
    entries replaced by [w] and by [w] reversed, times [h]. *)
Definition norm_matrix (b : nat) (w : vec) (m : Z) (h : R) : result matrix :=
  o ← Np.ones m;
  let H := Np.diag o in
  H ← Np.set_lead b H (Np.diag w);
  H ← Np.set_trail b H (Np.fliplr (Np.flipud (Np.get_lead b H)));
  Ok (Np.scale h H).

(** The interior stencils of [Qp]. *)
Definition interior_3rd (m : Z) : result matrix :=
  o1 ← Np.ones (m - 1);
  o2 ← Np.ones m;
  o3 ← Np.ones (m - 1);
  o4 ← Np.ones (m - 2);
  Ok (Np.sub (Np.add (Np.sub (Np.scale (-1/3) (Np.diag_k o1 (-1)))
                             (Np.scale (1/2) (Np.diag_k o2 0)))
                     (Np.scale 1 (Np.diag_k o3 1)))
             (Np.scale (1/6) (Np.diag_k o4 2))).

Definition interior_5th (m : Z) : result matrix :=
  o1 ← Np.ones (m - 2);
  o2 ← Np.ones (m - 1);
  o3 ← Np.ones m;
  o4 ← Np.ones (m - 1);
  o5 ← Np.ones (m - 2);
  o6 ← Np.ones (m - 3);
  Ok (Np.add (Np.sub (Np.add (Np.sub (Np.sub (Np.scale (1/20) (Np.diag_k o1 (-2)))
                                             (Np.scale (1/2) (Np.diag_k o2 (-1))))
                                     (Np.scale (1/3) (Np.diag_k o3 0)))
                             (Np.diag_k o4 1))
                     (Np.scale (1/4) (Np.diag_k o5 2)))
             (Np.scale (1/30) (Np.diag_k o6 3))).

Definition interior_7th (m : Z) : result matrix :=
  o1 ← Np.ones (m - 3);
  o2 ← Np.ones (m - 2);
  o3 ← Np.ones (m - 1);
  o4 ← Np.ones m;
  o5 ← Np.ones (m - 1);
  o6 ← Np.ones (m - 2);
  o7 ← Np.ones (m - 3);
  o8 ← Np.ones (m - 4);
  Ok (Np.sub
        (Np.add
           (Np.sub
              (Np.add
                 (Np.sub
                    (Np.sub (Np.add (Np.scale (-1/105) (Np.diag_k o1 (-3)))
                                    (Np.scale (1/10) (Np.diag_k o2 (-2))))
                            (Np.scale (3/5) (Np.diag_k o3 (-1))))
                    (Np.scale (1/4) (Np.diag_k o4 0)))
                 (Np.diag_k o5 1))
              (Np.scale (3/10) (Np.diag_k o6 2)))
           (Np.scale (1/15) (Np.diag_k o7 3)))
        (Np.scale (1/140) (Np.diag_k o8 4))).

(** [Qp]: the interior stencil with the closure [Qu] written over its
    leading block and [np.flipud(np.fliplr(Qu)).T] over its trailing one. *)
Definition upwind_Qp (b : nat) (interior : Z -> result matrix) (Qu : matrix)
           (m : Z) : result matrix :=
  Qp ← interior m;
  Qp ← Np.set_lead b Qp Qu;
  Np.set_trail b Qp (Np.transpose (Np.flipud (Np.fliplr Qu))).

(** The matrix [Q - 0.5*np.tensordot(e_l, e_l, axes=0)
                  + 0.5*np.tensordot(e_r, e_r, axes=0)]. *)
Definition corrected (Q : matrix) (e_l e_r : vec) : matrix :=
  Np.add (Np.sub Q (Np.scale 0.5 (Np.outer e_l e_l)))
         (Np.scale 0.5 (Np.outer e_r e_r)).

(** The body common to the three builders. *)
Definition sbp_upwind (b : nat) (w : vec) (interior : Z -> result matrix)
           (Qu : matrix) (m : Z) (h : R)
  : result (matrix * matrix * matrix * matrix * vec * vec) :=
  '(e_l, e_r) ← boundary_vectors m;
  H ← norm_matrix b w m h;
  HI ← linalg_inv H;
  Qp ← upwind_Qp b interior Qu m;
  let Qm := Np.mneg (Np.transpose Qp) in
  let Dp := Np.matmul HI (corrected Qp e_l e_r) in
  let Dm := Np.matmul HI (corrected Qm e_l e_r) in
  Ok (H, HI, Dp, Dm, e_l, e_r).

Definition sbp_upwind_3rd (m : Z) (h : R) :=
  sbp_upwind 4 Hw_3rd interior_3rd Qu_3rd m h.
Definition sbp_upwind_5th (m : Z) (h : R) :=
  sbp_upwind 4 Hw_5th interior_5th Qu_5th m h.
Definition sbp_upwind_7th (m : Z) (h : R) :=
  sbp_upwind 6 Hw_7th interior_7th Qu_7th m h.

End Upwind.

Import Periodic.

(** ** Vocabulary of the properties *)

(** The orders for which [periodic_expl] has a stencil. *)
Definition supported (order : Z) : Prop :=
  order = 2%Z \/ order = 4%Z \/ order = 6%Z \/
  order = 8%Z \/ order = 10%Z \/ order = 12%Z.

(** The half-width [l] that [periodic_expl] selects for [order]. *)
Definition half_width (order : Z) : Z :=
  match stencil order with
  | Ok (_, l, _) => l
  | Raise _ => 0%Z
  end.

(** A stencil whose weights at [+k] and [-k] cancel, or agree. *)
Definition antisymmetric (d : vec) (l : nat) : Prop :=
  forall k, (k <= l)%nat -> nth (l + k) d 0 + nth (l - k) d 0 = 0.

Definition symmetric (d : vec) (l : nat) : Prop :=
  forall k, (k <= l)%nat -> nth (l + k) d 0 = nth (l - k) d 0.

(** The contents of [v] after the two loops of [stencil_vector]; the
    second loop wins where the two ranges meet. *)
Definition wrapped (d : vec) (l r m j : nat) : R :=
  if ((m - l <=? j) && (j <? m))%nat then nth (l + j - m) d 0
  else if (j <=? r)%nat then nth (j + l) d 0
  else 0.

(** The weight that the stencil [d], centered at [i] and wrapped modulo
    [m], puts on column [j]: the weight at offset [t - l] lands on column
    [(i + t - l) mod m]. *)
Definition stencil_row (d : vec) (l m i j : nat) : R :=
  sum_n (fun t => if ((i + m + t - l) mod m =? j)%nat then nth t d 0 else 0)
        (length d).

(** [h] times the identity, and the zero matrix. *)
Definition identity_scaled (n : nat) (h : R) : matrix :=
  mk_matrix n n (fun i j => if (i =? j)%nat then h else 0).

Definition zero_matrix (n k : nat) : matrix := mk_matrix n k (fun _ _ => 0).

(** The three stencils of [periodic_imp]: for [Q], for [H] and for the
    dissipation. *)
Definition dQ : vec := [-q5; -q4; -q3; -q2; -q1; 0; q1; q2; q3; q4; q5].

Definition dH : vec := [h5; h4; h3; h2; h1; h0; h1; h2; h3; h4; h5].

Definition dS12 : vec :=
  Np.neg [1; -12; 66; -220; 495; -792; 924; -792; 495; -220; 66; -12; 1].

(** The periodic operators: [periodic_expl] at some order, or [periodic_imp]. *)
Inductive periodic_operator : Set :=
| Explicit (order : Z)
| Implicit.

Definition build (op : periodic_operator) (m : Z) (h : R) (use_AD : bool)
  : result (matrix * matrix) :=
  match op with
  | Explicit order => periodic_expl m h order use_AD
  | Implicit => periodic_imp m h use_AD
  end.

(** The stencils of the operator fit into [m] points without overlap:
    [m > 2*l] for the widest stencil the call assembles. *)
Definition fits (op : periodic_operator) (use_AD : bool) (m : Z) : Prop :=
  match op with
  | Explicit order => supported order /\ (2 * half_width order < m)%Z
  | Implicit => (2 * (if use_AD then 6 else 5) < m)%Z
  end.

(** [x^T H x > 0] for every [x] other than zero. *)
Definition positive_definite (n : nat) (H : matrix) : Prop :=
  forall x : vec,
    length x = n -> x <> replicate n 0 -> 0 < Np.dot x (Np.matvec H x).

(** The periodic extension of [x] and its correlation sums. *)
Definition xt (n : nat) (x : vec) (k : nat) : R := nth (k mod n) x 0.

Definition corr_sum (n : nat) (x : vec) (a b : nat) : R :=
  sum_n (fun i => xt n x (i + a) * xt n x (i + b)) n.

Definition auto_corr (n : nat) (x : vec) (k : nat) : R := corr_sum n x 0 k.

(** A quadratic expression in a window of [x], as a list of terms
    [c * y a * y b]. *)
Definition tm (c : R) (a b : nat) : R * nat * nat := (c, a, b).

Definition term_at (y : nat -> R) (t : R * nat * nat) : R :=
  let '(c, a, b) := t in c * (y a * y b).

Definition eval_terms (ts : list (R * nat * nat)) (y : nat -> R) : R :=
  Rsum (map (term_at y) ts).

Definition window (n : nat) (x : vec) (i : nat) : nat -> R :=
  fun a => xt n x (i + a).

(** An approximate spectral factor of the symbol of [dH]: the
    autocorrelation of [qh] agrees with [h0 .. h5] up to the residuals
    [res], and what is left on the diagonal is [eps > 0]. *)
Definition qh : vec := [577/1000; 504/1000; -50/1000; -46/1000; 11/1000; 1/1000].

Definition qh_corr (k : nat) : R :=
  sum_n (fun a => nth a qh 0 * nth (a + k) qh 0) 6.

Definition res (k : nat) : R := nth k [h0; h1; h2; h3; h4; h5] 0 - qh_corr k.

Definition eps : R := res 0 - 2 * (- res 1 + res 2 + res 3 + res 4 + res 5).

Definition sq (u : R) : R := u * u.

(** The quadratic form of one window of six consecutive points, and its
    monomials. *)
Definition W (y : nat -> R) : R :=
  eps * sq (y 0%nat)
  + sq (sum_n (fun a => nth a qh 0 * y a) 6)
  + (- res 1) * sq (y 0%nat - y 1%nat)
  + res 2 * sq (y 0%nat + y 2%nat)
  + res 3 * sq (y 0%nat + y 3%nat)
  + res 4 * sq (y 0%nat + y 4%nat)
  + res 5 * sq (y 0%nat + y 5%nat).

Definition W_terms : list (R * nat * nat) :=
  [tm eps 0 0]
  ++ flat_map (fun a => map (fun b => tm (nth a qh 0 * nth b qh 0) a b) (seq 0 6))
              (seq 0 6)
  ++ [tm (- res 1) 0 0; tm (2 * res 1) 0 1; tm (- res 1) 1 1]
  ++ [tm (res 2) 0 0; tm (2 * res 2) 0 2; tm (res 2) 2 2]
  ++ [tm (res 3) 0 0; tm (2 * res 3) 0 3; tm (res 3) 3 3]
  ++ [tm (res 4) 0 0; tm (2 * res 4) 0 4; tm (res 4) 4 4]
  ++ [tm (res 5) 0 0; tm (2 * res 5) 0 5; tm (res 5) 5 5].

(** The monomials of [x_i * (H x)_i / h] on [n] points, and the value of
    [x^T H x / h]. *)
Definition H_terms (n : nat) : list (R * nat * nat) :=
  [tm h0 0 0; tm h1 0 1; tm h2 0 2; tm h3 0 3; tm h4 0 4; tm h5 0 5;
   tm h5 0 (n - 5 + 0); tm h4 0 (n - 5 + 1); tm h3 0 (n - 5 + 2);
   tm h2 0 (n - 5 + 3); tm h1 0 (n - 5 + 4)].

Definition norm_form (n : nat) (x : vec) : R :=
  h0 * auto_corr n x 0
  + 2 * (h1 * auto_corr n x 1 + h2 * auto_corr n x 2 + h3 * auto_corr n x 3
         + h4 * auto_corr n x 4 + h5 * auto_corr n x 5).

(** The band of ones on the [k]-th diagonal. *)
Definition band (k : Z) (i j : nat) : R :=
  if (Z.of_nat j - Z.of_nat i =? k)%Z then 1 else 0.

(** The three upwind builders, with their closure width [b], closure
    table [Qu], norm weights and interior stencil. *)
Inductive upwind_order : Set := Third | Fifth | Seventh.

Definition closure_width (o : upwind_order) : nat :=
  match o with Third => 4 | Fifth => 4 | Seventh => 6 end%nat.

Definition closure (o : upwind_order) : matrix :=
  match o with Third => Qu_3rd | Fifth => Qu_5th | Seventh => Qu_7th end.

Definition norm_weights (o : upwind_order) : vec :=
  match o with Third => Hw_3rd | Fifth => Hw_5th | Seventh => Hw_7th end.

Definition interior_of (o : upwind_order) : Z -> result matrix :=
  match o with
  | Third => interior_3rd
  | Fifth => interior_5th
  | Seventh => interior_7th
  end.

(** The matrix [Qp] that the builder of order [o] assembles. *)
Definition Qp_of (o : upwind_order) (m : Z) : result matrix :=
  upwind_Qp (closure_width o) (interior_of o) (closure o) m.

Definition sbp_upwind_of (inv : matrix -> result matrix) (o : upwind_order)
           (m : Z) (h : R) :=
  match o with
  | Third => sbp_upwind_3rd inv m h
  | Fifth => sbp_upwind_5th inv m h
  | Seventh => sbp_upwind_7th inv m h
  end.

(** The identity of the upwind claim, as the spec words it. *)
Definition sbp_identity (Qp : matrix) (e_l e_r : vec) : Prop :=
  Np.add Qp (Np.transpose Qp) = Np.sub (Np.outer e_r e_r) (Np.outer e_l e_l).

(** Polynomials by their coefficients, lowest degree first: the value
    and the derivative at [x], and the samples of a function on the grid
    [0, h, 2h, ...]. *)
Definition peval (p : vec) (x : R) : R :=
  sum_n (fun k => nth k p 0 * x ^ k) (length p).

Definition pderiv (p : vec) (x : R) : R :=
  sum_n (fun k => nth k p 0 * (INR k * x ^ (k - 1))) (length p).

Definition sample (n : nat) (h : R) (f : R -> R) : vec :=
  map (fun j => f (INR j * h)) (seq 0 n).

(** A finite combination of point values, as pairs of weight and point;
    the points of a stencil [d] of half-width [l] centered at [X]. *)
Definition lin (A : list (R * R)) (g : R -> R) : R :=
  Rsum (map (fun co => fst co * g (snd co)) A).

Definition stencil_points (d : vec) (l : nat) (X : R) : list (R * R) :=
  map (fun j => (nth j d 0, X + INR j - INR l)) (seq 0 (length d)).

(** The combination [A] of point values equals the combination [B] of
    derivative values on every monomial of degree below [D]. *)
Definition exact_to (A B : list (R * R)) (D : nat) : Prop :=
  forall k, (k < D)%nat ->
            lin A (fun t => t ^ k) = lin B (fun t => INR k * t ^ (k - 1)).

(** What is left of [Q f - H f'] for [f = t^7] under the stencils of
    [periodic_imp], on the grid of spacing one. *)
Definition imp_defect : R :=
  lin (stencil_points dQ 5 0) (fun t => t ^ 7)
  - lin (stencil_points dH 5 0) (fun t => 7 * t ^ 6).

(** ** A first run: eight points, second order *)

Example expl_8_2 :
  periodic_expl 8 1 2 false =
  Ok (Np.scale 1 (mk_matrix 8 8 (fun i j => if (i =? j)%nat then 1 else 0)),
      [[0; 0.5; 0; 0; 0; 0; 0; -0.5];
       [-0.5; 0; 0.5; 0; 0; 0; 0; 0];
       [0; -0.5; 0; 0.5; 0; 0; 0; 0];
       [0; 0; -0.5; 0; 0.5; 0; 0; 0];
       [0; 0; 0; -0.5; 0; 0.5; 0; 0];
       [0; 0; 0; 0; -0.5; 0; 0.5; 0];
       [0; 0; 0; 0; 0; -0.5; 0; 0.5];
       [0.5; 0; 0; 0; 0; 0; -0.5; 0]]).
Proof. vm_compute. reflexivity. Qed.

(** Two points are too few for the order-12 stencil: the first loop
    writes [v[2]]. *)
Example expl_2_12 : periodic_expl 2 1 12 false = Raise IndexError.
Proof. vm_compute. reflexivity. Qed.

Example expl_8_3 : periodic_expl 8 1 3 false = Raise NotImplementedError.
Proof. vm_compute. reflexivity. Qed.

(** Six points carry the two stencils of [periodic_imp] but not its
    dissipation stencil. *)
Example imp_6_AD : periodic_imp 6 1 true = Raise IndexError.
Proof. vm_compute. reflexivity. Qed.

Example imp_6 : returns (periodic_imp 6 1 false).
Proof. eexists. vm_compute. reflexivity. Qed.

(** Three points are too few for the closure of the third-order upwind
    builder: the block assignment to [H] fails, whatever the inversion. *)
Example upwind_3rd_3 (inv : matrix -> result matrix) :
  sbp_upwind_3rd inv 3 1 = Raise ValueError.
Proof. vm_compute. reflexivity. Qed.

(** ** Lists, sums and matrix entries *)

(** Boolean tests in hypotheses become propositions. *)
Ltac to_prop :=
  repeat match goal with
  | H : (_ && _) = true |- _ => apply andb_true_iff in H as [? ?]
  | H : (_ && _) = false |- _ => apply andb_false_iff in H as [?|?]
  | H : (_ <? _)%nat = true |- _ => apply Nat.ltb_lt in H
  | H : (_ <? _)%nat = false |- _ => apply Nat.ltb_ge in H
  | H : (_ <=? _)%nat = true |- _ => apply Nat.leb_le in H
  | H : (_ <=? _)%nat = false |- _ => apply Nat.leb_gt in H
  | H : (_ =? _)%nat = true |- _ => apply Nat.eqb_eq in H
  | H : (_ =? _)%nat = false |- _ => apply Nat.eqb_neq in H
  | H : (_ <? _)%Z = true |- _ => apply Z.ltb_lt in H
  | H : (_ <? _)%Z = false |- _ => apply Z.ltb_ge in H
  | H : (_ <=? _)%Z = true |- _ => apply Z.leb_le in H
  | H : (_ <=? _)%Z = false |- _ => apply Z.leb_gt in H
  | H : (_ =? _)%Z = true |- _ => apply Z.eqb_eq in H
  | H : (_ =? _)%Z = false |- _ => apply Z.eqb_neq in H
  end.

(** Case analysis on the tests of the goal. *)
Ltac case_tests :=
  repeat match goal with
  | |- context [if ?b then _ else _] => destruct b eqn:?; to_prop
  end.

Section ListFacts.

Lemma nth_insert (l : list R) (i j : nat) (x d : R) :
  nth j (<[i := x]> l) d =
  if decide (j = i /\ (i < length l)%nat) then x else nth j l d.
Proof.
  revert i j; induction l as [|y l IH]; intros [|i] [|j]; simpl;
    try rewrite IH; repeat case_decide; try reflexivity; lia.
Qed.

Lemma nth_replicate (n j : nat) (x : R) :
  nth j (replicate n x) x = x.
Proof.
  revert j; induction n as [|n IH]; intros [|j]; simpl; auto.
Qed.

Lemma nth_drop (l : list R) (k j : nat) (d : R) :
  nth j (drop k l) d = nth (k + j) l d.
Proof. apply nth_skipn. Qed.

Lemma nth_take (l : list R) (k j : nat) (d : R) :
  (j < k)%nat -> nth j (take k l) d = nth j l d.
Proof.
  intros Hj. rewrite nth_firstn.
  destruct (j <? k)%nat eqn:E; [reflexivity|].
  apply Nat.ltb_ge in E. lia.
Qed.

Lemma nth_map_seq (f : nat -> R) (n j : nat) (d : R) :
  (j < n)%nat -> nth j (map f (seq 0 n)) d = f j.
Proof.
  intros Hj. rewrite (nth_indep _ d (f 0%nat)) by (rewrite length_map, length_seq; lia).
  rewrite (map_nth f (seq 0 n) 0%nat j), seq_nth by lia. reflexivity.
Qed.

Lemma Rsum_app (l1 l2 : list R) : Rsum (l1 ++ l2) = Rsum l1 + Rsum l2.
Proof. induction l1 as [|x l1 IH]; simpl; [ring | rewrite IH; ring]. Qed.

Lemma Rsum_replicate_0 (n : nat) : Rsum (replicate n 0) = 0.
Proof. induction n as [|n IH]; simpl; [reflexivity | rewrite IH; ring]. Qed.

Lemma Rsum_nth (l : list R) :
  Rsum l = sum_n (fun j => nth j l 0) (length l).
Proof.
  unfold sum_n. f_equal. apply nth_ext with (d := 0) (d' := 0).
  - rewrite length_map, length_seq. reflexivity.
  - intros j Hj. rewrite nth_map_seq by exact Hj. reflexivity.
Qed.

Lemma sum_n_S (f : nat -> R) (n : nat) :
  sum_n f (S n) = sum_n f n + f n.
Proof.
  unfold sum_n. rewrite seq_S, map_app, Rsum_app. simpl. ring.
Qed.

Lemma sum_n_ext (f g : nat -> R) (n : nat) :
  (forall i, (i < n)%nat -> f i = g i) -> sum_n f n = sum_n g n.
Proof.
  induction n as [|n IH]; intros E; [reflexivity|].
  rewrite !sum_n_S, IH, E by (intros; try apply E; lia). reflexivity.
Qed.

Lemma sum_n_plus (f g : nat -> R) (n : nat) :
  sum_n (fun i => f i + g i) n = sum_n f n + sum_n g n.
Proof.
  induction n as [|n IH]; [unfold sum_n; simpl; ring|].
  rewrite !sum_n_S, IH. ring.
Qed.

Lemma sum_n_scal (c : R) (f : nat -> R) (n : nat) :
  sum_n (fun i => c * f i) n = c * sum_n f n.
Proof.
  induction n as [|n IH]; [unfold sum_n; simpl; ring|].
  rewrite !sum_n_S, IH. ring.
Qed.

Lemma sum_n_zero (n : nat) : sum_n (fun _ => 0) n = 0.
Proof.
  induction n as [|n IH]; [reflexivity|]. rewrite sum_n_S, IH. ring.
Qed.

Lemma sum_n_le (f g : nat -> R) (n : nat) :
  (forall i, (i < n)%nat -> f i <= g i) -> sum_n f n <= sum_n g n.
Proof.
  induction n as [|n IH]; intros E; [unfold sum_n; simpl; lra|].
  rewrite !sum_n_S.
  assert (f n <= g n) by (apply E; lia).
  assert (sum_n f n <= sum_n g n) by (apply IH; intros; apply E; lia).
  lra.
Qed.

Lemma sum_n_add (f : nat -> R) (a b : nat) :
  sum_n f (a + b) = sum_n f a + sum_n (fun i => f (a + i)%nat) b.
Proof.
  induction b as [|b IH].
  - rewrite Nat.add_0_r. unfold sum_n at 3. simpl. ring.
  - rewrite Nat.add_succ_r, !sum_n_S, IH. ring.
Qed.

(** A sum over a full period does not depend on where it starts. *)
Lemma sum_n_rotate1 (g : nat -> R) (m : nat) :
  (0 < m)%nat ->
  sum_n (fun j => g ((j + 1) mod m)%nat) m = sum_n g m.
Proof.
  intros Hm. destruct m as [|m]; [lia|].
  assert (E : sum_n g (S m) = g 0%nat + sum_n (fun i => g (1 + i)%nat) m).
  { change (S m) with (1 + m)%nat. rewrite sum_n_add.
    unfold sum_n at 1. simpl. ring. }
  rewrite E, sum_n_S.
  replace ((m + 1) mod S m)%nat with 0%nat
    by (replace (m + 1)%nat with (S m) by lia; now rewrite Nat.Div0.mod_same).
  rewrite (sum_n_ext _ (fun i => g (1 + i)%nat)); [ring|].
  intros i Hi. f_equal. rewrite Nat.mod_small; lia.
Qed.

Lemma sum_n_rotate (g : nat -> R) (m s : nat) :
  (0 < m)%nat ->
  sum_n (fun j => g ((j + s) mod m)%nat) m = sum_n g m.
Proof.
  intros Hm. induction s as [|s IH].
  - apply sum_n_ext. intros i Hi. f_equal.
    rewrite Nat.add_0_r. apply Nat.mod_small. exact Hi.
  - rewrite <- IH.
    rewrite <- (sum_n_rotate1 (fun j => g ((j + s) mod m)%nat) m Hm).
    apply sum_n_ext. intros i Hi. f_equal.
    rewrite Nat.Div0.add_mod_idemp_l. f_equal. lia.
Qed.

End ListFacts.

Section MatrixFacts.

Lemma shape_mk_matrix n k f : shape n k (mk_matrix n k f).
Proof.
  split.
  - unfold mk_matrix. rewrite length_map, length_seq. reflexivity.
  - unfold mk_matrix. apply Forall_forall. intros row Hrow.
    apply list_elem_of_In, in_map_iff in Hrow. destruct Hrow as (i & <- & _).
    rewrite length_map, length_seq. reflexivity.
Qed.

Lemma entry_mk_matrix n k f i j :
  (i < n)%nat -> (j < k)%nat -> entry (mk_matrix n k f) i j = f i j.
Proof.
  intros Hi Hj. unfold entry, mk_matrix.
  rewrite (nth_indep _ [] (map (fun j => f 0%nat j) (seq 0 k)))
    by (rewrite length_map, length_seq; lia).
  rewrite (map_nth (fun i => map (fun j => f i j) (seq 0 k)) (seq 0 n) 0%nat i).
  rewrite seq_nth by lia. simpl. apply nth_map_seq. exact Hj.
Qed.

Lemma shape_row n k A i :
  shape n k A -> (i < n)%nat -> length (nth i A []) = k.
Proof.
  intros [Hn Hk] Hi. rewrite Forall_forall in Hk. apply Hk.
  apply list_elem_of_In, nth_In. lia.
Qed.

(** Two matrices of one shape with the same entries are equal. *)
Lemma matrix_ext n k A B :
  shape n k A -> shape n k B ->
  (forall i j, (i < n)%nat -> (j < k)%nat -> entry A i j = entry B i j) ->
  A = B.
Proof.
  intros HA HB E.
  apply nth_ext with (d := []) (d' := []).
  - destruct HA, HB. congruence.
  - intros i Hi. destruct HA as [HAn HAk] eqn:EA. rewrite HAn in Hi.
    apply nth_ext with (d := 0) (d' := 0).
    + rewrite (shape_row n k A), (shape_row n k B); auto.
    + intros j Hj. rewrite (shape_row n k A) in Hj by auto.
      apply E; assumption.
Qed.

Lemma matrix_is_mk n k A :
  shape n k A -> A = mk_matrix n k (entry A).
Proof.
  intros HA. apply (matrix_ext n k); auto using shape_mk_matrix.
  intros i j Hi Hj. rewrite entry_mk_matrix by assumption. reflexivity.
Qed.

Lemma shape_scale n k x A : shape n k A -> shape n k (Np.scale x A).
Proof.
  intros [Hn Hk]. split.
  - unfold Np.scale. rewrite length_map. exact Hn.
  - unfold Np.scale. apply Forall_fmap. eapply Forall_impl; [exact Hk|].
    intros row Hrow. simpl. rewrite length_map. exact Hrow.
Qed.

Lemma entry_scale x A i j : entry (Np.scale x A) i j = x * entry A i j.
Proof.
  unfold entry, Np.scale.
  destruct (le_lt_dec (length A) i) as [Hi|Hi].
  - rewrite (nth_overflow (map _ A)), (nth_overflow A)
      by (rewrite ?length_map; lia).
    destruct j; simpl; ring.
  - rewrite (nth_indep _ [] (map (Rmult x) [])) by (rewrite length_map; lia).
    rewrite (map_nth (map (Rmult x)) A [] i).
    destruct (le_lt_dec (length (nth i A [])) j) as [Hj|Hj].
    + rewrite !nth_overflow by (rewrite ?length_map; lia). ring.
    + rewrite (nth_indep _ 0 (x * 0)) by (rewrite length_map; lia).
      apply (map_nth (Rmult x)).
Qed.

Lemma shape_zip_with n k (f : R -> R -> R) A B :
  shape n k A -> shape n k B -> shape n k (zip_with (zip_with f) A B).
Proof.
  intros [HAn HAk] [HBn HBk]. split.
  - rewrite length_zip_with. lia.
  - apply Forall_forall. intros row Hrow.
    apply elem_of_lookup_zip_with in Hrow as (i & a & b & -> & Ha & Hb).
    rewrite Forall_forall in HAk, HBk.
    rewrite length_zip_with, (HAk a), (HBk b);
      eauto using list_elem_of_lookup_2. lia.
Qed.

Lemma nth_zip_with (f : R -> R -> R) (x y : list R) j :
  length x = length y ->
  f 0 0 = 0 ->
  nth j (zip_with f x y) 0 = f (nth j x 0) (nth j y 0).
Proof.
  intros Hlen Hf. revert y j Hlen.
  induction x as [|a x IH]; intros [|b y] [|j] Hlen; simpl in *;
    try discriminate; auto.
Qed.

Lemma entry_zip_with n k (f : R -> R -> R) A B i j :
  shape n k A -> shape n k B -> f 0 0 = 0 ->
  entry (zip_with (zip_with f) A B) i j = f (entry A i j) (entry B i j).
Proof.
  intros HA HB Hf. unfold entry.
  destruct (le_lt_dec n i) as [Hi|Hi].
  - destruct HA as [HAn _], HB as [HBn _].
    rewrite (nth_overflow (zip_with _ A B)), (nth_overflow A), (nth_overflow B)
      by (rewrite ?length_zip_with; lia).
    destruct j; simpl; auto.
  - assert (HrA := shape_row n k A i HA Hi).
    assert (HrB := shape_row n k B i HB Hi).
    destruct HA as [HAn _], HB as [HBn _].
    assert (E : nth i (zip_with (zip_with f) A B) [] =
                zip_with f (nth i A []) (nth i B [])).
    { clear HrA HrB. subst n. revert B i HBn Hi.
      induction A as [|a A IH]; intros [|b B] [|i] HBn Hi; simpl in *;
        try lia; auto.
      apply IH; lia. }
    rewrite E. apply nth_zip_with; congruence.
Qed.

Lemma entry_sub n k A B i j :
  shape n k A -> shape n k B ->
  entry (Np.sub A B) i j = entry A i j - entry B i j.
Proof. intros. apply (entry_zip_with n k); auto. ring. Qed.

Lemma entry_add n k A B i j :
  shape n k A -> shape n k B ->
  entry (Np.add A B) i j = entry A i j + entry B i j.
Proof. intros. apply (entry_zip_with n k); auto. ring. Qed.

Lemma shape_sub n k A B :
  shape n k A -> shape n k B -> shape n k (Np.sub A B).
Proof. apply shape_zip_with. Qed.

Lemma shape_add n k A B :
  shape n k A -> shape n k B -> shape n k (Np.add A B).
Proof. apply shape_zip_with. Qed.

Lemma shape_transpose n k A :
  shape n k A -> (0 < n)%nat -> shape k n (Np.transpose A).
Proof.
  intros HA Hn. unfold Np.transpose.
  assert (length (hd [] A) = k) as ->.
  { rewrite <- (shape_row n k A 0 HA Hn). destruct A; reflexivity. }
  destruct HA as [-> _]. apply shape_mk_matrix.
Qed.

Lemma entry_transpose n k A i j :
  shape n k A -> (i < k)%nat -> (j < n)%nat ->
  entry (Np.transpose A) i j = entry A j i.
Proof.
  intros HA Hi Hj. unfold Np.transpose.
  assert (length (hd [] A) = k) as ->.
  { rewrite <- (shape_row n k A 0 HA) by lia. destruct A; reflexivity. }
  destruct HA as [-> _]. rewrite entry_mk_matrix by assumption. reflexivity.
Qed.

Lemma dot_sum (x y : vec) n :
  length x = n -> length y = n ->
  Np.dot x y = sum_n (fun t => nth t x 0 * nth t y 0) n.
Proof.
  intros Hx Hy. unfold Np.dot. rewrite Rsum_nth, length_zip_with.
  replace (length x `min` length y)%nat with n by lia.
  apply sum_n_ext. intros t Ht.
  apply nth_zip_with; [congruence | ring].
Qed.

End MatrixFacts.

(** ** The stencil vector and the circulant assembly *)

Section Assembly.

Ltac run := cbn [mbind result_bind Py.for_each].

Lemma for_each_app {S} (xs ys : list Z) (body : Z -> S -> result S) (s : S) :
  Py.for_each (xs ++ ys) body s =
  (s' ← Py.for_each xs body s; Py.for_each ys body s').
Proof.
  revert s; induction xs as [|x xs IH]; intros s; simpl; [reflexivity|].
  destruct (body x s) as [s'|e]; simpl; [apply IH | reflexivity].
Qed.

Lemma range_of_nat (n : nat) : Py.range (Z.of_nat n) = map Z.of_nat (seq 0 n).
Proof. unfold Py.range. rewrite Nat2Z.id. reflexivity. Qed.

Lemma range_S (n : nat) :
  Py.range (Z.of_nat (S n)) = Py.range (Z.of_nat n) ++ [Z.of_nat n].
Proof. rewrite !range_of_nat, seq_S, map_app. reflexivity. Qed.

Lemma range_split (n k : nat) :
  (n <= k)%nat ->
  Py.range (Z.of_nat k) =
  Py.range (Z.of_nat n) ++ map Z.of_nat (seq n (k - n)).
Proof.
  intros H. rewrite !range_of_nat, <- map_app.
  replace k with (n + (k - n))%nat at 1 by lia.
  rewrite seq_app. reflexivity.
Qed.

Lemma index_ok (n i : nat) : (i < n)%nat -> Py.index n (Z.of_nat i) = Ok i.
Proof.
  intros H. unfold Py.index.
  replace ((0 <=? Z.of_nat i)%Z && (Z.of_nat i <? Z.of_nat n)%Z) with true
    by (symmetry; apply andb_true_iff; split; [apply Z.leb_le | apply Z.ltb_lt]; lia).
  rewrite Nat2Z.id. reflexivity.
Qed.

Lemma index_length (n : nat) : Py.index n (Z.of_nat n) = Raise IndexError.
Proof.
  unfold Py.index.
  replace (Z.of_nat n <? Z.of_nat n)%Z with false
    by (symmetry; apply Z.ltb_ge; lia).
  replace (Z.of_nat n <? 0)%Z with false
    by (symmetry; apply Z.ltb_ge; lia).
  rewrite !andb_false_r. reflexivity.
Qed.

Lemma getitem_ok (d : vec) (i : nat) :
  (i < length d)%nat -> Py.getitem d (Z.of_nat i) = Ok (nth i d 0).
Proof. intros H. unfold Py.getitem. rewrite index_ok by exact H. reflexivity. Qed.

Lemma setitem_ok (v : vec) (i : nat) (x : R) :
  (i < length v)%nat -> Py.setitem v (Z.of_nat i) x = Ok (<[i := x]> v).
Proof. intros H. unfold Py.setitem. rewrite index_ok by exact H. reflexivity. Qed.

(** First loop: [for i in range(n): v[i] = d[i+l]]. *)
Lemma fill_head (d : vec) (l m : nat) (v : vec) (n : nat) :
  length v = m -> (n <= m)%nat -> (n + l <= length d)%nat ->
  exists v',
    Py.for_each (Py.range (Z.of_nat n))
      (fun i v => x ← Py.getitem d (i + Z.of_nat l); Py.setitem v i x) v = Ok v'
    /\ length v' = m
    /\ forall j, nth j v' 0 = if (j <? n)%nat then nth (j + l) d 0 else nth j v 0.
Proof.
  intros Hv. induction n as [|n IH]; intros Hn Hd.
  - exists v. simpl. auto.
  - destruct IH as (v' & E & Hlen & Hnth); [lia | lia |].
    exists (<[n := nth (n + l) d 0]> v').
    rewrite range_S, for_each_app, E. run.
    rewrite <- Nat2Z.inj_add, getitem_ok by lia. run.
    rewrite setitem_ok by lia. split; [reflexivity|].
    split; [rewrite length_insert; exact Hlen|].
    intros j. rewrite nth_insert, Hnth.
    case_decide as Hj.
    + destruct Hj as [-> _].
      replace (n <? S n)%nat with true by (symmetry; apply Nat.ltb_lt; lia).
      reflexivity.
    + case_tests; try reflexivity; lia.
Qed.

(** Second loop: [for i in range(n): v[m-i-1] = d[l-i-1]]. *)
Lemma fill_tail (d : vec) (l m : nat) (v : vec) (n : nat) :
  length v = m -> (n <= m)%nat -> (n <= l)%nat -> (l <= length d)%nat ->
  exists v',
    Py.for_each (Py.range (Z.of_nat n))
      (fun i v => x ← Py.getitem d (Z.of_nat l - i - 1);
                  Py.setitem v (Z.of_nat m - i - 1) x) v = Ok v'
    /\ length v' = m
    /\ forall j, nth j v' 0 =
                 if ((m - n <=? j) && (j <? m))%nat
                 then nth (l + j - m) d 0 else nth j v 0.
Proof.
  intros Hv. induction n as [|n IH]; intros Hn Hl Hd.
  - exists v. simpl. split; [reflexivity|]. split; [exact Hv|].
    intros j. case_tests; [lia | reflexivity | reflexivity].
  - destruct IH as (v' & E & Hlen & Hnth); [lia | lia | lia |].
    exists (<[(m - n - 1)%nat := nth (l - n - 1) d 0]> v').
    rewrite range_S, for_each_app, E. run.
    replace (Z.of_nat l - Z.of_nat n - 1)%Z with (Z.of_nat (l - n - 1)) by lia.
    replace (Z.of_nat m - Z.of_nat n - 1)%Z with (Z.of_nat (m - n - 1)) by lia.
    rewrite getitem_ok by lia. run.
    rewrite setitem_ok by lia. split; [reflexivity|].
    split; [rewrite length_insert; exact Hlen|].
    intros j. rewrite nth_insert, Hnth.
    case_decide as Hj.
    + destruct Hj as [-> _].
      replace ((m - S n <=? m - n - 1) && (m - n - 1 <? m))%nat with true
        by (symmetry; apply andb_true_iff; split;
            [apply Nat.leb_le | apply Nat.ltb_lt]; lia).
      f_equal. lia.
    + case_tests; try reflexivity; lia.
Qed.

Lemma stencil_vector_spec (d : vec) (l r m : nat) :
  length d = (l + r + 1)%nat -> (r + 1 <= m)%nat -> (l <= m)%nat ->
  exists v,
    stencil_vector d (Z.of_nat l) (Z.of_nat r) (Z.of_nat m) = Ok v
    /\ length v = m
    /\ forall j, nth j v 0 = wrapped d l r m j.
Proof.
  intros Hd Hr Hl. unfold stencil_vector, Np.zeros.
  replace (Z.of_nat m <? 0)%Z with false by (symmetry; apply Z.ltb_ge; lia).
  rewrite Nat2Z.id. simpl.
  replace (Z.of_nat r + 1)%Z with (Z.of_nat (S r)) by lia.
  destruct (fill_head d l m (replicate m 0) (S r)) as (v1 & E1 & Hlen1 & Hnth1);
    [apply length_replicate | lia | lia |].
  rewrite E1. simpl.
  destruct (fill_tail d l m v1 l) as (v2 & E2 & Hlen2 & Hnth2);
    [exact Hlen1 | lia | lia | lia |].
  exists v2. split; [exact E2|]. split; [exact Hlen2|].
  intros j. rewrite Hnth2, Hnth1. unfold wrapped.
  case_tests; try reflexivity; try lia; apply nth_replicate.
Qed.

(** With fewer than [r+1] points the first loop runs off the end of [v]. *)
Lemma stencil_vector_short (d : vec) (l r m : nat) :
  length d = (l + r + 1)%nat -> (m <= r)%nat ->
  stencil_vector d (Z.of_nat l) (Z.of_nat r) (Z.of_nat m) = Raise IndexError.
Proof.
  intros Hd Hm. unfold stencil_vector, Np.zeros.
  replace (Z.of_nat m <? 0)%Z with false by (symmetry; apply Z.ltb_ge; lia).
  rewrite Nat2Z.id. simpl.
  replace (Z.of_nat r + 1)%Z with (Z.of_nat (S r)) by lia.
  rewrite (range_split m (S r)) by lia.
  rewrite for_each_app.
  destruct (fill_head d l m (replicate m 0) m) as (v1 & E1 & Hlen1 & _);
    [apply length_replicate | lia | lia |].
  rewrite E1. simpl.
  replace (S r - m)%nat with (S (r - m)) by lia. simpl.
  rewrite <- Nat2Z.inj_add, getitem_ok by lia. simpl.
  unfold Py.setitem. rewrite Hlen1, index_length. reflexivity.
Qed.

Lemma stencil_vector_negative (d : vec) (l r m : Z) :
  (m < 0)%Z -> stencil_vector d l r m = Raise ValueError.
Proof.
  intros Hm. unfold stencil_vector, Np.zeros.
  replace (m <? 0)%Z with true by (symmetry; apply Z.ltb_lt; lia).
  reflexivity.
Qed.

Lemma length_roll (a : vec) (s : Z) : length (Np.roll a s) = length a.
Proof.
  unfold Np.roll. rewrite length_app, length_drop, length_take. lia.
Qed.

Lemma nth_roll_flip (v : vec) (k : nat) :
  (k < length v)%nat ->
  nth k (Np.roll (Np.flip v) 1) 0 = nth ((length v - k) mod length v) v 0.
Proof.
  intros Hk. unfold Np.roll, Np.flip. rewrite length_rev.
  set (m := length v) in *.
  set (s := Z.to_nat (1 mod Z.of_nat m)).
  assert (Hs : (m = 1 /\ s = 0 \/ 2 <= m /\ s = 1)%nat).
  { destruct (decide (m = 1%nat)) as [ -> |Hm]; [left; split; reflexivity|].
    right. split; [lia|]. unfold s. rewrite Z.mod_small by lia. reflexivity. }
  destruct (le_lt_dec s k) as [Hsk|Hsk].
  - rewrite app_nth2 by (rewrite length_drop, length_rev; fold m; lia).
    rewrite length_drop, length_rev. fold m.
    rewrite nth_take by lia.
    rewrite rev_nth by (fold m; lia). fold m.
    f_equal. destruct Hs as [[-> ->]|[Hm ->]].
    + replace k with 0%nat by lia. reflexivity.
    + rewrite Nat.mod_small by lia. lia.
  - rewrite app_nth1 by (rewrite length_drop, length_rev; fold m; lia).
    rewrite nth_drop, rev_nth by (fold m; lia). fold m.
    f_equal. destruct Hs as [[-> ->]|[Hm ->]]; [lia|].
    replace k with 0%nat by lia.
    rewrite Nat.sub_0_r, Nat.Div0.mod_same. lia.
Qed.

Lemma shape_circulant (v : vec) :
  shape (length v) (length v) (circulant v).
Proof.
  unfold circulant, Scipy.toeplitz.
  rewrite length_roll. unfold Np.flip. rewrite length_rev.
  apply shape_mk_matrix.
Qed.

(** Row [i] of the assembled matrix is [v] shifted cyclically by [i]. *)
Lemma entry_circulant (v : vec) (i j : nat) :
  (i < length v)%nat -> (j < length v)%nat ->
  entry (circulant v) i j = nth ((j + length v - i) mod length v) v 0.
Proof.
  intros Hi Hj. unfold circulant, Scipy.toeplitz.
  rewrite length_roll. unfold Np.flip at 1. rewrite length_rev.
  rewrite entry_mk_matrix by assumption.
  destruct (j <=? i)%nat eqn:E.
  - apply Nat.leb_le in E. rewrite nth_roll_flip by lia.
    f_equal. destruct (decide (i = j)) as [ -> |Hne].
    + replace (length v - (j - j))%nat with (length v) by lia.
      replace (j + length v - j)%nat with (length v) by lia. reflexivity.
    + rewrite !Nat.mod_small by lia. lia.
  - apply Nat.leb_gt in E. f_equal.
    replace (j + length v - i)%nat with ((j - i) + 1 * length v)%nat by lia.
    rewrite Nat.Div0.mod_add, Nat.mod_small by lia. reflexivity.
Qed.

End Assembly.

(** ** The stencil tables *)

Section Tables.

Lemma stencil_unsupported (order : Z) :
  ~ supported order -> stencil order = Raise NotImplementedError.
Proof.
  intros H. unfold stencil, supported in *.
  case_tests; try reflexivity; exfalso; apply H; auto 10.
Qed.

Lemma dissipation_unsupported (order : Z) :
  ~ supported order -> dissipation order = Raise NotImplementedError.
Proof.
  intros H. unfold dissipation, supported in *.
  case_tests; try reflexivity; exfalso; apply H; auto 10.
Qed.

Lemma stencil_supported (order : Z) :
  supported order ->
  exists (d : vec) (l : nat),
    stencil order = Ok (d, Z.of_nat l, Z.of_nat l)
    /\ half_width order = Z.of_nat l
    /\ length d = (l + l + 1)%nat
    /\ antisymmetric d l
    /\ Rsum d = 0.
Proof.
  intros [ -> | [ -> | [ -> | [ -> | [ -> | -> ]]]]].
  - exists [-0.5; 0; 0.5], 1%nat. repeat split.
    + intros k Hk. do 2 (destruct k as [|k]; [simpl; lra|]). lia.
    + unfold Rsum; simpl; lra.
  - exists [1/12; -2/3; 0; 2/3; -1/12], 2%nat. repeat split.
    + intros k Hk. do 3 (destruct k as [|k]; [simpl; lra|]). lia.
    + unfold Rsum; simpl; lra.
  - exists [-1/60; 3/20; -3/4; 0; 3/4; -3/20; 1/60], 3%nat. repeat split.
    + intros k Hk. do 4 (destruct k as [|k]; [simpl; lra|]). lia.
    + unfold Rsum; simpl; lra.
  - exists [1/280; -4/105; 1/5; -4/5; 0; 4/5; -1/5; 4/105; -1/280], 4%nat.
    repeat split.
    + intros k Hk. do 5 (destruct k as [|k]; [simpl; lra|]). lia.
    + unfold Rsum; simpl; lra.
  - exists [-1/1260; 5/504; -5/84; 5/21; -5/6; 0;
            5/6; -5/21; 5/84; -5/504; 1/1260], 5%nat.
    repeat split.
    + intros k Hk. do 6 (destruct k as [|k]; [simpl; lra|]). lia.
    + unfold Rsum; simpl; lra.
  - exists [1/5544; -1/385; 1/56; -5/63; 15/56; -6/7; 0;
            6/7; -15/56; 5/63; -1/56; 1/385; -1/5544], 6%nat.
    repeat split.
    + intros k Hk. do 7 (destruct k as [|k]; [simpl; lra|]). lia.
    + unfold Rsum; simpl; lra.
Qed.

Lemma dissipation_supported (order : Z) :
  supported order ->
  exists (d : vec) (l : nat) (a : R),
    dissipation order = Ok (d, Z.of_nat l, Z.of_nat l, a)
    /\ half_width order = Z.of_nat l
    /\ length d = (l + l + 1)%nat
    /\ Rsum d = 0.
Proof.
  intros [ -> | [ -> | [ -> | [ -> | [ -> | -> ]]]]].
  - exists [1; -2; 1], 1%nat, 0.5. repeat split. unfold Rsum; simpl; lra.
  - exists (Np.neg [1; -4; 6; -4; 1]), 2%nat, (1/12). repeat split.
    unfold Rsum; simpl; lra.
  - exists [1; -6; 15; -20; 15; -6; 1], 3%nat, (1/60). repeat split.
    unfold Rsum; simpl; lra.
  - exists (Np.neg [1; -8; 28; -56; 70; -56; 28; -8; 1]), 4%nat, (1/280).
    repeat split. unfold Rsum; simpl; lra.
  - exists [1; -10; 45; -120; 210; -252; 210; -120; 45; -10; 1], 5%nat, (1/1260).
    repeat split. unfold Rsum; simpl; lra.
  - exists (Np.neg [1; -12; 66; -220; 495; -792; 924; -792; 495; -220; 66; -12; 1]),
      6%nat, (1/5544).
    repeat split. unfold Rsum; simpl; lra.
Qed.

End Tables.

(** ** What the periodic builders compute *)

Section Runs.

Ltac run := cbn [mbind result_bind].

Lemma eye_of_nat (n : nat) :
  Np.eye (Z.of_nat n) =
  Ok (mk_matrix n n (fun i j => if (i =? j)%nat then 1 else 0)).
Proof.
  unfold Np.eye.
  replace (Z.of_nat n <? 0)%Z with false by (symmetry; apply Z.ltb_ge; lia).
  rewrite Nat2Z.id. reflexivity.
Qed.

Lemma scale_eye (n : nat) (h : R) :
  Np.scale h (mk_matrix n n (fun i j => if (i =? j)%nat then 1 else 0)) =
  identity_scaled n h.
Proof.
  apply (matrix_ext n n); auto using shape_scale, shape_mk_matrix.
  - apply shape_mk_matrix.
  - intros i j Hi Hj. unfold identity_scaled.
    rewrite entry_scale, !entry_mk_matrix by assumption.
    destruct (i =? j)%nat; ring.
Qed.

(** With more than [l] points [periodic_expl] runs to the end. *)
Lemma periodic_expl_run (n : nat) (h : R) (order : Z) (use_AD : bool)
      (d dS : vec) (l : nat) (a : R) :
  stencil order = Ok (d, Z.of_nat l, Z.of_nat l) ->
  dissipation order = Ok (dS, Z.of_nat l, Z.of_nat l, a) ->
  length d = (l + l + 1)%nat -> length dS = (l + l + 1)%nat ->
  (l < n)%nat ->
  exists v vS : vec,
    length v = n /\ length vS = n
    /\ (forall j, nth j v 0 = wrapped d l l n j)
    /\ (forall j, nth j vS 0 = wrapped dS l l n j)
    /\ periodic_expl (Z.of_nat n) h order use_AD =
       Ok (identity_scaled n h,
           if use_AD then Np.sub (circulant v) (Np.scale a (circulant vS))
           else circulant v).
Proof.
  intros Hst Hdis Hd HdS Hn.
  destruct (stencil_vector_spec d l l n) as (v & Ev & Hlen & Hv); [lia..|].
  destruct (stencil_vector_spec dS l l n) as (vS & EvS & HlenS & HvS); [lia..|].
  exists v, vS. repeat (split; [assumption|]).
  unfold periodic_expl. rewrite Hst. run. rewrite Ev. run.
  rewrite eye_of_nat. run. unfold Scipy.csc_matrix. rewrite scale_eye.
  destruct use_AD; [|reflexivity].
  rewrite Hdis. run. rewrite EvS. run. reflexivity.
Qed.

(** The three outcomes of [periodic_expl] on a supported order. *)
Lemma periodic_expl_outcome (m : Z) (h : R) (order : Z) (use_AD : bool) :
  supported order ->
  ((m < 0)%Z /\ periodic_expl m h order use_AD = Raise ValueError)
  \/ ((0 <= m <= half_width order)%Z
      /\ periodic_expl m h order use_AD = Raise IndexError)
  \/ ((half_width order < m)%Z
      /\ exists H Q, periodic_expl m h order use_AD = Ok (H, Q)).
Proof.
  intros Hs.
  destruct (stencil_supported order Hs) as (d & l & Hst & Hw & Hd & _).
  destruct (dissipation_supported order Hs) as (dS & l' & a & Hdis & Hw' & HdS & _).
  assert (l' = l) as -> by lia. rewrite Hw.
  destruct (Z_lt_le_dec m 0) as [Hneg|Hpos].
  - left. split; [exact Hneg|].
    unfold periodic_expl. rewrite Hst. run.
    rewrite stencil_vector_negative by exact Hneg. reflexivity.
  - right. destruct (Z_le_gt_dec m (Z.of_nat l)) as [Hle|Hgt].
    + left. split; [lia|].
      unfold periodic_expl. rewrite Hst. run.
      rewrite <- (Z2Nat.id m) by exact Hpos.
      rewrite stencil_vector_short by lia. reflexivity.
    + right. split; [lia|].
      rewrite <- (Z2Nat.id m) by exact Hpos.
      destruct (periodic_expl_run (Z.to_nat m) h order use_AD d dS l a)
        as (v & vS & _ & _ & _ & _ & E); try assumption; [lia|].
      rewrite E. eauto.
Qed.

(** The two assemblies of [periodic_imp] need at least six points. *)
Lemma periodic_imp_run (n : nat) (h : R) :
  (5 < n)%nat ->
  exists vQ vH : vec,
    length vQ = n /\ length vH = n
    /\ (forall j, nth j vQ 0 = wrapped dQ 5 5 n j)
    /\ (forall j, nth j vH 0 = wrapped dH 5 5 n j)
    /\ stencil_vector dQ 5 5 (Z.of_nat n) = Ok vQ
    /\ stencil_vector dH 5 5 (Z.of_nat n) = Ok vH
    /\ periodic_imp (Z.of_nat n) h false =
       Ok (Np.scale h (circulant vH), circulant vQ).
Proof.
  intros Hn.
  destruct (stencil_vector_spec dQ 5 5 n) as (vQ & EQ & HlenQ & HQ);
    [reflexivity | lia | lia |].
  destruct (stencil_vector_spec dH 5 5 n) as (vH & EH & HlenH & HH);
    [reflexivity | lia | lia |].
  change (Z.of_nat 5) with 5%Z in *.
  exists vQ, vH. repeat (split; [assumption|]).
  unfold periodic_imp. cbv zeta. fold dQ. fold dH.
  rewrite EQ. run. rewrite EH. reflexivity.
Qed.

(** The dissipation assembly of [periodic_imp] needs a seventh point. *)
Lemma periodic_imp_run_AD (n : nat) (h : R) :
  (6 < n)%nat ->
  exists vQ vH vS : vec,
    length vQ = n /\ length vH = n /\ length vS = n
    /\ (forall j, nth j vQ 0 = wrapped dQ 5 5 n j)
    /\ (forall j, nth j vH 0 = wrapped dH 5 5 n j)
    /\ (forall j, nth j vS 0 = wrapped dS12 6 6 n j)
    /\ stencil_vector dS12 6 6 (Z.of_nat n) = Ok vS
    /\ periodic_imp (Z.of_nat n) h false =
       Ok (Np.scale h (circulant vH), circulant vQ)
    /\ periodic_imp (Z.of_nat n) h true =
       Ok (Np.scale h (circulant vH),
           Np.sub (circulant vQ) (Np.scale (1/5544) (circulant vS))).
Proof.
  intros Hn.
  destruct (periodic_imp_run n h) as (vQ & vH & HlQ & HlH & HQ & HH & EQ & EH & E);
    [lia|].
  destruct (stencil_vector_spec dS12 6 6 n) as (vS & ES & HlenS & HS);
    [reflexivity | lia | lia |].
  change (Z.of_nat 6) with 6%Z in *.
  exists vQ, vH, vS. repeat (split; [assumption|]).
  unfold periodic_imp. cbv zeta. fold dQ. fold dH. fold dS12.
  rewrite EQ. run. rewrite EH. run. rewrite ES. reflexivity.
Qed.

End Runs.

(** ** Circulant matrices of wrapped stencils *)

Section Circulant.

Lemma wrapped_antisym (d : vec) (l m k : nat) :
  length d = (l + l + 1)%nat -> antisymmetric d l ->
  (l + l < m)%nat -> (k < m)%nat ->
  wrapped d l l m k + wrapped d l l m ((m - k) mod m) = 0.
Proof.
  intros Hd Ha Hm Hk.
  destruct (decide (k = 0%nat)) as [ -> |Hk0].
  - rewrite Nat.sub_0_r, Nat.Div0.mod_same.
    unfold wrapped. case_tests; try lia.
    pose proof (Ha 0%nat ltac:(lia)) as Hanti.
    rewrite Nat.add_0_r, Nat.sub_0_r in Hanti. simpl. lra.
  - rewrite Nat.mod_small by lia.
    unfold wrapped. case_tests; try lia; try lra.
    + pose proof (Ha (m - k)%nat ltac:(lia)) as Hanti.
      replace (l - (m - k))%nat with (l + k - m)%nat in Hanti by lia.
      replace (m - k + l)%nat with (l + (m - k))%nat by lia. lra.
    + pose proof (Ha k ltac:(lia)) as Hanti.
      replace (l + (m - k) - m)%nat with (l - k)%nat by lia.
      replace (k + l)%nat with (l + k)%nat by lia. lra.
Qed.

Lemma circulant_skew (v : vec) :
  (forall k, (k < length v)%nat ->
             nth k v 0 + nth ((length v - k) mod length v) v 0 = 0) ->
  forall i j, (i < length v)%nat -> (j < length v)%nat ->
              entry (circulant v) i j + entry (circulant v) j i = 0.
Proof.
  intros H i j Hi Hj. rewrite !entry_circulant by assumption.
  set (m := length v) in *.
  assert (E : ((i + m - j) mod m = (m - (j + m - i) mod m) mod m)%nat).
  { destruct (lt_eq_lt_dec i j) as [[Hlt| -> ]|Hgt].
    - replace (j + m - i)%nat with ((j - i) + 1 * m)%nat by lia.
      rewrite Nat.Div0.mod_add, (Nat.mod_small (j - i)) by lia.
      rewrite !Nat.mod_small by lia. lia.
    - replace (j + m - j)%nat with m by lia.
      rewrite Nat.Div0.mod_same, Nat.sub_0_r, Nat.Div0.mod_same. reflexivity.
    - replace (i + m - j)%nat with ((i - j) + 1 * m)%nat by lia.
      rewrite Nat.Div0.mod_add, (Nat.mod_small (i - j)) by lia.
      rewrite (Nat.mod_small (j + m - i)) by lia.
      rewrite Nat.mod_small by lia. lia. }
  rewrite E. apply H. apply Nat.mod_upper_bound. lia.
Qed.

Lemma add_transpose_zero (n : nat) (A : matrix) :
  (0 < n)%nat -> shape n n A ->
  (forall i j, (i < n)%nat -> (j < n)%nat -> entry A i j + entry A j i = 0) ->
  Np.add A (Np.transpose A) = zero_matrix n n.
Proof.
  intros Hn HA H.
  apply (matrix_ext n n).
  - apply shape_add; [exact HA | apply shape_transpose; assumption].
  - apply shape_mk_matrix.
  - intros i j Hi Hj.
    rewrite (entry_add n n) by (auto using shape_transpose).
    rewrite (entry_transpose n n) by assumption.
    unfold zero_matrix. rewrite entry_mk_matrix by assumption.
    apply H; assumption.
Qed.

Lemma sum_wrapped (d : vec) (l r m : nat) :
  length d = (l + r + 1)%nat -> (l + r < m)%nat ->
  sum_n (wrapped d l r m) m = Rsum d.
Proof.
  intros Hd Hm.
  set (f := wrapped d l r m).
  replace m with ((r + 1) + ((m - l - r - 1) + l))%nat by lia.
  rewrite (sum_n_add f (r + 1)), (sum_n_add _ (m - l - r - 1) l). unfold f.
  rewrite (sum_n_ext _ (fun j => nth (l + j) d 0) (r + 1)).
  2:{ intros j Hj. unfold wrapped. case_tests; try lia. f_equal. lia. }
  rewrite (sum_n_ext _ (fun _ => 0) (m - l - r - 1)).
  2:{ intros j Hj. unfold wrapped. case_tests; try lia. reflexivity. }
  rewrite (sum_n_ext _ (fun j => nth j d 0) l).
  2:{ intros j Hj. unfold wrapped. case_tests; try lia. f_equal. lia. }
  rewrite sum_n_zero, Rsum_nth, Hd.
  replace (l + r + 1)%nat with (l + (r + 1))%nat by lia.
  rewrite (sum_n_add _ l (r + 1)). ring.
Qed.

Lemma circulant_row_sum (v : vec) (i : nat) :
  (i < length v)%nat ->
  sum_n (entry (circulant v) i) (length v) = Rsum v.
Proof.
  intros Hi.
  rewrite (sum_n_ext _ (fun t => nth ((t + (length v - i)) mod length v) v 0)).
  - rewrite (sum_n_rotate (fun t => nth t v 0)) by lia.
    symmetry. apply Rsum_nth.
  - intros t Ht. rewrite entry_circulant by assumption. do 2 f_equal. lia.
Qed.

Lemma matvec_ones (n k : nat) (A : matrix) :
  shape n k A ->
  (forall i, (i < n)%nat -> sum_n (entry A i) k = 0) ->
  Np.matvec A (replicate k 1) = replicate n 0.
Proof.
  intros HA H. apply nth_ext with (d := 0) (d' := 0).
  - unfold Np.matvec. rewrite length_map, length_replicate. apply HA.
  - intros i Hi. unfold Np.matvec in *. rewrite length_map in Hi.
    destruct HA as [HAn HAk] eqn:EA. rewrite HAn in Hi.
    rewrite nth_replicate.
    rewrite (nth_indep _ 0 (Np.dot [] (replicate k 1)))
      by (rewrite length_map; lia).
    rewrite (map_nth (fun row => Np.dot row (replicate k 1)) A [] i).
    rewrite (dot_sum _ _ k)
      by (rewrite ?length_replicate; eauto using shape_row).
    etransitivity; [|exact (H i Hi)]. apply sum_n_ext. intros t Ht.
    unfold entry.
    rewrite (nth_indep (replicate k 1) 0 1) by (rewrite length_replicate; lia).
    rewrite nth_replicate. ring.
Qed.

Lemma sum_n_single (f : nat -> R) (P : nat -> bool) (n t0 : nat) :
  (t0 < n)%nat -> P t0 = true ->
  (forall t, (t < n)%nat -> P t = true -> t = t0) ->
  sum_n (fun t => if P t then f t else 0) n = f t0.
Proof.
  intros Ht0 HP Huniq.
  set (g := fun t => if P t then f t else 0).
  replace n with (t0 + (1 + (n - t0 - 1)))%nat by lia.
  rewrite (sum_n_add g t0), (sum_n_add _ 1 (n - t0 - 1)). unfold g.
  rewrite (sum_n_ext _ (fun _ => 0) t0).
  2:{ intros t Ht. destruct (P t) eqn:E; [|reflexivity].
      apply Huniq in E; lia. }
  rewrite (sum_n_ext _ (fun _ => 0) (n - t0 - 1)).
  2:{ intros t Ht. destruct (P (t0 + (1 + t))%nat) eqn:E; [|reflexivity].
      apply Huniq in E; lia. }
  rewrite !sum_n_zero. unfold sum_n. simpl.
  rewrite Nat.add_0_r, HP. ring.
Qed.

Lemma sum_n_none (f : nat -> R) (P : nat -> bool) (n : nat) :
  (forall t, (t < n)%nat -> P t = false) ->
  sum_n (fun t => if P t then f t else 0) n = 0.
Proof.
  intros H. rewrite (sum_n_ext _ (fun _ => 0)); [apply sum_n_zero|].
  intros t Ht. rewrite H by exact Ht. reflexivity.
Qed.

Lemma mod_below_3 (x m : nat) :
  (0 < m)%nat -> (x < 3 * m)%nat ->
  (x mod m)%nat =
  if (x <? m)%nat then x else if (x <? 2 * m)%nat then (x - m)%nat else (x - 2 * m)%nat.
Proof.
  intros Hm Hx. case_tests.
  - apply Nat.mod_small. lia.
  - replace x with ((x - m) + 1 * m)%nat at 1 by lia.
    rewrite Nat.Div0.mod_add. apply Nat.mod_small. lia.
  - replace x with ((x - 2 * m) + 2 * m)%nat at 1 by lia.
    rewrite Nat.Div0.mod_add. apply Nat.mod_small. lia.
Qed.

Lemma wrapped_stencil_row (d : vec) (l m i j : nat) :
  length d = (l + l + 1)%nat -> (l + l < m)%nat ->
  (i < m)%nat -> (j < m)%nat ->
  wrapped d l l m ((j + m - i) mod m) = stencil_row d l m i j.
Proof.
  intros Hd Hm Hi Hj. unfold stencil_row. rewrite Hd.
  assert (Hcol : forall t, (t < l + l + 1)%nat ->
            ((i + m + t - l) mod m =? j)%nat = true <->
            (i + m + t - l = j \/ i + m + t - l = j + m
             \/ i + m + t - l = j + 2 * m)%nat).
  { intros t Ht. rewrite Nat.eqb_eq, (mod_below_3 _ m) by lia.
    case_tests; lia. }
  rewrite (mod_below_3 _ m) by lia.
  destruct (j + m - i <? m)%nat eqn:E1; [|destruct (j + m - i <? 2 * m)%nat eqn:E2];
    to_prop; try lia; unfold wrapped;
    case_tests; try lia; symmetry;
    match goal with
    | |- _ = nth ?t0 _ _ =>
        apply (sum_n_single (fun t => nth t d 0)
                 (fun t => ((i + m + t - l) mod m =? j)%nat) _ t0);
        [ lia
        | apply Hcol; lia
        | let t := fresh "t" in
          let Ht := fresh "Ht" in
          let HP := fresh "HP" in
          intros t Ht HP; apply Hcol in HP; [lia | exact Ht] ]
    | |- _ = 0 =>
        apply (sum_n_none (fun t => nth t d 0)
                 (fun t => ((i + m + t - l) mod m =? j)%nat));
        let t := fresh "t" in
        let Ht := fresh "Ht" in
        let E := fresh "E" in
        intros t Ht;
        destruct ((i + m + t - l) mod m =? j)%nat eqn:E; [exfalso|reflexivity];
        apply Hcol in E; [lia | exact Ht]
    end.
Qed.

End Circulant.

(** ** Properties of the periodic builders *)

Section PeriodicTheorems.

Lemma shape_identity_scaled n h : shape n n (identity_scaled n h).
Proof. apply shape_mk_matrix. Qed.

Lemma wrapped_vector_skew (d : vec) (l : nat) (v : vec) :
  length d = (l + l + 1)%nat -> antisymmetric d l ->
  (l + l < length v)%nat ->
  (forall j, nth j v 0 = wrapped d l l (length v) j) ->
  forall i j, (i < length v)%nat -> (j < length v)%nat ->
              entry (circulant v) i j + entry (circulant v) j i = 0.
Proof.
  intros Hd Ha Hm Hv. apply circulant_skew.
  intros k Hk. rewrite !Hv. apply wrapped_antisym; assumption.
Qed.

Lemma wrapped_vector_row_sum (d : vec) (l : nat) (v : vec) (i : nat) :
  length d = (l + l + 1)%nat -> (l + l < length v)%nat ->
  (forall j, nth j v 0 = wrapped d l l (length v) j) ->
  (i < length v)%nat ->
  sum_n (entry (circulant v) i) (length v) = Rsum d.
Proof.
  intros Hd Hm Hv Hi. rewrite circulant_row_sum by exact Hi.
  rewrite Rsum_nth, <- (sum_wrapped d l l (length v)) by lia.
  apply sum_n_ext. intros j _. apply Hv.
Qed.

Lemma row_sum_sub_scale (n : nat) (A B : matrix) (a : R) (i : nat) :
  shape n n A -> shape n n B ->
  sum_n (entry (Np.sub A (Np.scale a B)) i) n =
  sum_n (entry A i) n - a * sum_n (entry B i) n.
Proof.
  intros HA HB.
  rewrite (sum_n_ext _ (fun j => entry A i j + (- a) * entry B i j)).
  - rewrite sum_n_plus, sum_n_scal. ring.
  - intros j _. rewrite (entry_sub n n), entry_scale by auto using shape_scale.
    ring.
Qed.

Lemma sub_sub_same (n : nat) (A B S : matrix) :
  shape n n A -> shape n n B -> shape n n S ->
  Np.sub (Np.sub A S) A = Np.sub (Np.sub B S) B.
Proof.
  intros HA HB HS.
  apply (matrix_ext n n); auto using shape_sub.
  intros i j _ _. rewrite !(entry_sub n n) by auto using shape_sub. ring.
Qed.

End PeriodicTheorems.

(** C4: for a centered stencil [d] of half-width [l = r] and [m > l + r],
    the assembly used by the periodic builders succeeds and produces the
    [m] by [m] matrix whose entry [(i, j)] is the weight that the stencil
    centered at [i], with indices wrapping modulo [m], puts on column [j]. *)
Theorem C4_circulant_assembly (d : vec) (l m : nat) :
  length d = (l + l + 1)%nat -> (l + l < m)%nat ->
  exists v : vec,
    stencil_vector d (Z.of_nat l) (Z.of_nat l) (Z.of_nat m) = Ok v
    /\ shape m m (circulant v)
    /\ forall i j, (i < m)%nat -> (j < m)%nat ->
                   entry (circulant v) i j = stencil_row d l m i j.
Proof.
  intros Hd Hm.
  destruct (stencil_vector_spec d l l m) as (v & E & Hlen & Hv); [lia..|].
  exists v. split; [exact E|]. split.
  - rewrite <- Hlen. apply shape_circulant.
  - intros i j Hi Hj. rewrite entry_circulant by lia.
    rewrite Hv, Hlen. apply wrapped_stencil_row; assumption.
Qed.

Lemma C4_circulant_assembly_witness :
  exists v : vec,
    stencil_vector [-0.5; 0; 0.5] (Z.of_nat 1) (Z.of_nat 1) (Z.of_nat 8) = Ok v
    /\ shape 8 8 (circulant v)
    /\ forall i j, (i < 8)%nat -> (j < 8)%nat ->
                   entry (circulant v) i j = stencil_row [-0.5; 0; 0.5] 1 8 i j.
Proof.
  apply (C4_circulant_assembly [-0.5; 0; 0.5] 1 8); [reflexivity | lia].
Defined.

(** C1: for every supported order, every [m > 2*l] and every [h > 0],
    [periodic_expl(m, h, order, use_AD=False)] returns [(H, Q)] with
    [Q + transpose(Q) = 0] and [H] equal to [h] times the identity. *)
Theorem C1_periodic_expl_skew (m : Z) (h : R) (order : Z) :
  supported order -> (2 * half_width order < m)%Z -> 0 < h ->
  exists H Q : matrix,
    periodic_expl m h order false = Ok (H, Q)
    /\ Np.add Q (Np.transpose Q) = zero_matrix (Z.to_nat m) (Z.to_nat m)
    /\ H = identity_scaled (Z.to_nat m) h.
Proof.
  intros Hs Hm _.
  destruct (stencil_supported order Hs) as (d & l & Hst & Hw & Hd & Ha & _).
  destruct (dissipation_supported order Hs) as (dS & l' & a & Hdis & Hw' & HdS & _).
  assert (l' = l) as -> by lia. rewrite Hw in Hm.
  destruct (periodic_expl_run (Z.to_nat m) h order false d dS l a)
    as (v & vS & Hlen & _ & Hv & _ & E); try assumption; [lia|].
  rewrite Z2Nat.id in E by lia.
  exists (identity_scaled (Z.to_nat m) h), (circulant v).
  split; [exact E|]. split; [|reflexivity].
  apply add_transpose_zero; [lia | |].
  - rewrite <- Hlen. apply shape_circulant.
  - rewrite <- Hlen. apply (wrapped_vector_skew d l); auto; [lia|].
    rewrite Hlen. exact Hv.
Qed.

Lemma C1_periodic_expl_skew_witness :
  exists H Q : matrix,
    periodic_expl 8 1 2 false = Ok (H, Q)
    /\ Np.add Q (Np.transpose Q) = zero_matrix (Z.to_nat 8) (Z.to_nat 8)
    /\ H = identity_scaled (Z.to_nat 8) 1.
Proof.
  apply (C1_periodic_expl_skew 8 1 2);
    [left; reflexivity | unfold half_width; simpl; lia | lra].
Defined.

Lemma Rsum_dQ : Rsum dQ = 0.
Proof. unfold Rsum, dQ. simpl. ring. Qed.

Lemma Rsum_dS12 : Rsum dS12 = 0.
Proof. unfold Rsum, dS12. simpl. lra. Qed.

Lemma ones_zeros_of_nat (n : nat) :
  Np.ones (Z.of_nat n) = Ok (replicate n 1)
  /\ Np.zeros (Z.of_nat n) = Ok (replicate n 0).
Proof.
  unfold Np.ones, Np.zeros.
  replace (Z.of_nat n <? 0)%Z with false by (symmetry; apply Z.ltb_ge; lia).
  rewrite Nat2Z.id. split; reflexivity.
Qed.



(** C8: [periodic_expl] raises [NotImplementedError] (the spec's
    UnsupportedOrder) exactly when [order] is not one of 2, 4, 6, 8, 10, 12;
    a call with [order = 3] fails that way. *)
Theorem C8_unsupported_order (m : Z) (h : R) (order : Z) (use_AD : bool) :
  (periodic_expl m h order use_AD = Raise NotImplementedError
   <-> ~ supported order)
  /\ periodic_expl m h 3 use_AD = Raise NotImplementedError.
Proof.
  split; [split|].
  - intros E Hs.
    destruct (periodic_expl_outcome m h order use_AD Hs)
      as [[_ E']|[[_ E']|[_ (H & Q & E')]]]; congruence.
  - intros Hn. unfold periodic_expl.
    rewrite stencil_unsupported by exact Hn. reflexivity.
  - reflexivity.
Qed.



(** C10: the norm matrix does not depend on the dissipation flag.  The two
    calls of [periodic_expl] give the same [H] (or fail alike); whenever
    [periodic_imp] returns with dissipation it returns the same [H] without
    it, and from seven points on both calls return. *)
Theorem C10_norm_independent_of_dissipation (m : Z) (h : R) (order : Z) :
  0 < h -> supported order ->
  fst <$> periodic_expl m h order true = fst <$> periodic_expl m h order false
  /\ (forall H Q : matrix,
        periodic_imp m h true = Ok (H, Q) ->
        exists Q' : matrix, periodic_imp m h false = Ok (H, Q'))
  /\ ((6 < m)%Z ->
      exists H Q Q' : matrix,
        periodic_imp m h true = Ok (H, Q) /\ periodic_imp m h false = Ok (H, Q')).
Proof.
  intros _ Hs. split; [|split].
  - destruct (stencil_supported order Hs) as (d & l & Hst & Hw & Hd & _).
    destruct (dissipation_supported order Hs)
      as (dS & l' & a & Hdis & Hw' & HdS & _).
    assert (l' = l) as -> by lia.
    destruct (periodic_expl_outcome m h order true Hs)
      as [[H1 E1]|[[H1 E1]|[H1 _]]];
    destruct (periodic_expl_outcome m h order false Hs)
      as [[H2 E2]|[[H2 E2]|[H2 _]]]; try lia;
      try (rewrite E1, E2; reflexivity).
    assert (0 <= m)%Z by lia.
    rewrite <- (Z2Nat.id m) by assumption.
    destruct (periodic_expl_run (Z.to_nat m) h order true d dS l a)
      as (? & ? & _ & _ & _ & _ & E1); try assumption; [lia|].
    destruct (periodic_expl_run (Z.to_nat m) h order false d dS l a)
      as (? & ? & _ & _ & _ & _ & E2); try assumption; [lia|].
    rewrite E1, E2. reflexivity.
  - intros H Q. unfold periodic_imp. cbv zeta. fold dQ. fold dH. fold dS12.
    destruct (stencil_vector dQ 5 5 m) as [vQ|e];
      cbn [mbind result_bind]; [|intros E; discriminate E].
    destruct (stencil_vector dH 5 5 m) as [vH|e];
      cbn [mbind result_bind]; [|intros E; discriminate E].
    destruct (stencil_vector dS12 6 6 m) as [vS|e];
      cbn [mbind result_bind]; [|intros E; discriminate E].
    intros E. injection E as <- _. eauto.
  - intros Hm. rewrite <- (Z2Nat.id m) by lia.
    destruct (periodic_imp_run_AD (Z.to_nat m) h) as (vQ & vH & vS & HE); [lia|].
    destruct HE as (_ & _ & _ & _ & _ & _ & _ & E0 & E1). eauto.
Qed.

Lemma C10_norm_independent_of_dissipation_witness :
  fst <$> periodic_expl 16 1 4 true = fst <$> periodic_expl 16 1 4 false
  /\ (forall H Q : matrix,
        periodic_imp 16 1 true = Ok (H, Q) ->
        exists Q' : matrix, periodic_imp 16 1 false = Ok (H, Q'))
  /\ ((6 < 16)%Z ->
      exists H Q Q' : matrix,
        periodic_imp 16 1 true = Ok (H, Q) /\ periodic_imp 16 1 false = Ok (H, Q')).
Proof.
  apply (C10_norm_independent_of_dissipation 16 1 4);
    [lra | right; left; reflexivity].
Defined.

(** ** Matrix products *)

Lemma nth_map_default {A : Type} (f : A -> R) (l : list A) (j : nat) (d : A) :
  (j < length l)%nat -> nth j (map f l) 0 = f (nth j l d).
Proof.
  intros Hj. rewrite (nth_indep _ 0 (f d)) by (rewrite length_map; exact Hj).
  apply map_nth.
Qed.

Lemma row_mk_matrix (n k : nat) (f : nat -> nat -> R) (i : nat) :
  (i < n)%nat -> nth i (mk_matrix n k f) [] = map (f i) (seq 0 k).
Proof.
  intros Hi. unfold mk_matrix.
  rewrite (nth_indep _ [] (map (fun j => f 0%nat j) (seq 0 k)))
    by (rewrite length_map, length_seq; exact Hi).
  rewrite (map_nth (fun i => map (fun j => f i j) (seq 0 k)) (seq 0 n) 0%nat i).
  rewrite seq_nth by exact Hi. reflexivity.
Qed.

Lemma dot_scale_l (a : R) (x y : vec) :
  Np.dot (map (Rmult a) x) y = a * Np.dot x y.
Proof.
  unfold Np.dot. revert y. induction x as [|u x IH]; intros [|w y]; simpl;
    try ring.
  rewrite IH. ring.
Qed.

Lemma scale_matmul_l (a : R) (A B : matrix) :
  Np.matmul (Np.scale a A) B = Np.scale a (Np.matmul A B).
Proof.
  unfold Np.matmul, Np.scale. rewrite !map_map. apply map_ext.
  intros row. rewrite map_map. apply map_ext.
  intros col. apply dot_scale_l.
Qed.

Lemma shape_matmul (n k p : nat) (A B : matrix) :
  shape n k A -> shape k p B -> (0 < k)%nat -> shape n p (Np.matmul A B).
Proof.
  intros [HAn HAk] HB Hk. split.
  - unfold Np.matmul. rewrite length_map. exact HAn.
  - unfold Np.matmul. apply Forall_fmap, Forall_forall. intros row _. simpl.
    rewrite length_map.
    destruct (shape_transpose k p B HB Hk) as [-> _]. reflexivity.
Qed.

Lemma entry_matmul (n k p : nat) (A B : matrix) (i j : nat) :
  shape n k A -> shape k p B -> (0 < k)%nat -> (i < n)%nat -> (j < p)%nat ->
  entry (Np.matmul A B) i j = sum_n (fun t => entry A i t * entry B t j) k.
Proof.
  intros HA HB Hk Hi Hj.
  assert (HT : Np.transpose B = mk_matrix p k (fun a b => entry B b a)).
  { unfold Np.transpose.
    assert (length (hd [] B) = p) as ->.
    { rewrite <- (shape_row k p B 0 HB Hk). destruct B; reflexivity. }
    destruct HB as [-> _]. reflexivity. }
  unfold entry at 1. unfold Np.matmul.
  rewrite (nth_indep _ [] (map (Np.dot []) (Np.transpose B)))
    by (rewrite length_map; destruct HA; lia).
  rewrite (map_nth (fun row => map (Np.dot row) (Np.transpose B)) A [] i).
  rewrite HT.
  rewrite (nth_map_default _ _ _ [])
    by (destruct (shape_mk_matrix p k (fun a b => entry B b a)); lia).
  rewrite row_mk_matrix by exact Hj.
  rewrite (dot_sum _ _ k);
    [|eauto using shape_row | rewrite length_map, length_seq; reflexivity].
  apply sum_n_ext. intros t Ht. rewrite nth_map_seq by exact Ht. reflexivity.
Qed.

Lemma shape_diag (c : vec) : shape (length c) (length c) (Np.diag c).
Proof. apply shape_mk_matrix. Qed.

Lemma matmul_diag_ones (n : nat) (A : matrix) :
  (0 < n)%nat -> shape n n A -> Np.matmul A (Np.diag (replicate n 1)) = A.
Proof.
  intros Hn HA.
  assert (HD : shape n n (Np.diag (replicate n 1))).
  { pose proof (shape_diag (replicate n 1)) as HD.
    rewrite length_replicate in HD. exact HD. }
  apply (matrix_ext n n); [apply (shape_matmul n n n); assumption | exact HA |].
  intros i j Hi Hj. rewrite (entry_matmul n n n) by assumption.
  rewrite (sum_n_ext _ (fun t => if (t =? j)%nat then entry A i t else 0)).
  - apply (sum_n_single (entry A i) (fun t => (t =? j)%nat)); auto.
    + apply Nat.eqb_refl.
    + intros t _ E. apply Nat.eqb_eq. exact E.
  - intros t Ht. unfold Np.diag. rewrite length_replicate.
    rewrite entry_mk_matrix by assumption.
    destruct (t =? j)%nat; [|ring].
    rewrite (nth_indep _ 0 1) by (rewrite length_replicate; exact Ht).
    rewrite nth_replicate. ring.
Qed.

Lemma periodic_expl_shape (m : Z) (h : R) (order : Z) (H Q : matrix) :
  supported order ->
  periodic_expl m h order false = Ok (H, Q) ->
  (0 < m)%Z /\ shape (Z.to_nat m) (Z.to_nat m) Q.
Proof.
  intros Hs E.
  destruct (stencil_supported order Hs) as (d & l & Hst & Hw & Hd & _).
  destruct (dissipation_supported order Hs) as (dS & l' & a & Hdis & Hw' & HdS & _).
  assert (l' = l) as -> by lia.
  destruct (periodic_expl_outcome m h order false Hs)
    as [[_ E']|[[_ E']|[Hm _]]]; try congruence.
  assert (0 < m)%Z by lia. split; [assumption|].
  destruct (periodic_expl_run (Z.to_nat m) h order false d dS l a)
    as (v & vS & Hlen & _ & _ & _ & E'); try assumption; [lia|].
  rewrite Z2Nat.id in E' by lia.
  rewrite E in E'. injection E' as _ ->.
  rewrite <- Hlen at 1 2. apply shape_circulant.
Qed.

(** C6: [periodic_variable_wide(m, h, order)] returns a closure [M]
    whenever [periodic_expl(m, h, order, False)] returns [(H, Q)], which it
    does for every [m] above the half-width; then
    [M(c) = -(1/h) * Q * diag(c) * Q] for every [c] of length [m], and
    [M(ones(m)) = -(1/h) * Q * Q]. *)
Theorem C6_variable_wide (m : Z) (h : R) (order : Z) :
  0 < h -> supported order ->
  ((half_width order < m)%Z -> returns (periodic_variable_wide m h order))
  /\ forall H Q : matrix,
       periodic_expl m h order false = Ok (H, Q) ->
       exists M : vec -> result matrix,
         periodic_variable_wide m h order = Ok M
         /\ (forall c : vec,
               length c = Z.to_nat m ->
               M c = Ok (Np.scale (- (1 / h))
                           (Np.matmul (Np.matmul Q (Np.diag c)) Q)))
         /\ (forall o : vec,
               Np.ones m = Ok o ->
               M o = Ok (Np.scale (- (1 / h)) (Np.matmul Q Q))).
Proof.
  intros Hh Hs. split.
  - intros Hm.
    destruct (periodic_expl_outcome m h order false Hs)
      as [[Hm' _]|[[Hm' _]|[_ (H & Q & E)]]].
    + destruct (stencil_supported order Hs) as (d & l & _ & Hw & _). lia.
    + lia.
    + unfold returns, periodic_variable_wide. rewrite E. eauto.
  - intros H Q E.
    destruct (periodic_expl_shape m h order H Q Hs E) as [Hm HQ].
    assert (Hc : forall c : vec,
               length c = Z.to_nat m ->
               M_fun h Q c = Ok (Np.scale (- (1 / h))
                                   (Np.matmul (Np.matmul Q (Np.diag c)) Q))).
    { intros c Hlen. unfold M_fun.
      destruct (Req_dec_T h 0) as [H0|_]; [lra|].
      destruct HQ as [HQn _]. rewrite Hlen, HQn, Nat.eqb_refl. simpl.
      rewrite !scale_matmul_l. do 2 f_equal. unfold Rdiv. ring. }
    exists (M_fun h Q). split; [|split].
    + unfold periodic_variable_wide. rewrite E. reflexivity.
    + exact Hc.
    + intros o Ho. unfold Np.ones in Ho.
      destruct (m <? 0)%Z; [discriminate|]. injection Ho as <-.
      rewrite Hc by apply length_replicate.
      rewrite matmul_diag_ones by (auto; lia). reflexivity.
Qed.

Lemma C6_variable_wide_witness :
  ((half_width 2 < 8)%Z -> returns (periodic_variable_wide 8 1 2))
  /\ forall H Q : matrix,
       periodic_expl 8 1 2 false = Ok (H, Q) ->
       exists M : vec -> result matrix,
         periodic_variable_wide 8 1 2 = Ok M
         /\ (forall c : vec,
               length c = Z.to_nat 8 ->
               M c = Ok (Np.scale (- (1 / 1))
                           (Np.matmul (Np.matmul Q (Np.diag c)) Q)))
         /\ (forall o : vec,
               Np.ones 8 = Ok o ->
               M o = Ok (Np.scale (- (1 / 1)) (Np.matmul Q Q))).
Proof.
  apply (C6_variable_wide 8 1 2); [lra | left; reflexivity].
Defined.

(** ** Quadratic forms of circulant matrices *)

Section Periodic_sums.

Variable n : nat.
Hypothesis Hn : (0 < n)%nat.
Variable x : vec.

Lemma xt_small (k : nat) : (k < n)%nat -> xt n x k = nth k x 0.
Proof. intros Hk. unfold xt. rewrite Nat.mod_small by exact Hk. reflexivity. Qed.

Lemma xt_add_mod (k c : nat) : xt n x (k mod n + c) = xt n x (k + c).
Proof. unfold xt. rewrite Nat.Div0.add_mod_idemp_l. reflexivity. Qed.

Lemma xt_mod (k : nat) : xt n x (k mod n) = xt n x k.
Proof. unfold xt. rewrite Nat.Div0.mod_mod. reflexivity. Qed.

Lemma xt_add_n (k : nat) : xt n x (k + n) = xt n x k.
Proof.
  unfold xt. replace (k + n)%nat with (k + 1 * n)%nat by lia.
  rewrite Nat.Div0.mod_add. reflexivity.
Qed.

Lemma sum_n_shift (G : nat -> R) (k : nat) :
  (forall a, G (a mod n)%nat = G a) ->
  sum_n (fun i => G (i + k)%nat) n = sum_n G n.
Proof.
  intros HG. rewrite <- (sum_n_rotate G n k Hn).
  apply sum_n_ext. intros i _. symmetry. apply HG.
Qed.

Lemma corr_sum_sym (a b : nat) : corr_sum n x a b = corr_sum n x b a.
Proof. unfold corr_sum. apply sum_n_ext. intros i _. ring. Qed.

Lemma corr_sum_shift (a b : nat) :
  (a <= b)%nat -> corr_sum n x a b = auto_corr n x (b - a).
Proof.
  intros Hab. unfold auto_corr, corr_sum.
  rewrite <- (sum_n_shift (fun i => xt n x (i + 0) * xt n x (i + (b - a))) a).
  - apply sum_n_ext. intros i _. do 2 f_equal; lia.
  - intros t. rewrite !xt_add_mod. reflexivity.
Qed.

Lemma corr_sum_auto (a b : nat) :
  corr_sum n x a b = auto_corr n x (Nat.max a b - Nat.min a b).
Proof.
  destruct (le_lt_dec a b) as [H|H].
  - rewrite corr_sum_shift by exact H. f_equal. lia.
  - rewrite corr_sum_sym, corr_sum_shift by lia. f_equal. lia.
Qed.

Lemma auto_corr_reflect (k : nat) :
  (k <= n)%nat -> auto_corr n x (n - k) = auto_corr n x k.
Proof.
  intros Hk. unfold auto_corr, corr_sum.
  rewrite <- (sum_n_shift (fun i => xt n x (i + 0) * xt n x (i + (n - k))) k).
  - apply sum_n_ext. intros i _.
    replace (i + k + (n - k))%nat with (i + n)%nat by lia.
    rewrite xt_add_n, !Nat.add_0_r. ring.
  - intros t. rewrite !xt_add_mod. reflexivity.
Qed.

Lemma sum_eval_terms (ts : list (R * nat * nat)) :
  sum_n (fun i => eval_terms ts (window n x i)) n =
  Rsum (map (fun t => let '(c, a, b) := t in c * corr_sum n x a b) ts).
Proof.
  induction ts as [|[[c a] b] ts IH].
  - unfold eval_terms. simpl. apply sum_n_zero.
  - unfold eval_terms in *. simpl.
    rewrite sum_n_plus, IH. f_equal.
    unfold window. rewrite sum_n_scal. reflexivity.
Qed.

(** Row [i] of a circulant matrix applied to [x]. *)
Lemma circulant_row_dot (v : vec) (i : nat) :
  length v = n -> (i < n)%nat ->
  sum_n (fun t => entry (circulant v) i t * nth t x 0) n =
  sum_n (fun s => nth s v 0 * xt n x (i + s)) n.
Proof.
  intros Hv Hi.
  set (F := fun t => nth ((t + (n - i)) mod n) v 0 * xt n x t).
  transitivity (sum_n F n).
  { apply sum_n_ext. intros t Ht. unfold F.
    rewrite entry_circulant, Hv by lia.
    rewrite xt_small by exact Ht. do 3 f_equal. lia. }
  rewrite <- (sum_n_rotate F n i Hn).
  apply sum_n_ext. intros s Hs. unfold F.
  rewrite xt_mod, Nat.Div0.add_mod_idemp_l.
  replace (s + i + (n - i))%nat with (s + 1 * n)%nat by lia.
  rewrite Nat.Div0.mod_add, Nat.mod_small by exact Hs.
  do 2 f_equal. lia.
Qed.

(** A wrapped stencil against a function of the position. *)
Lemma wrapped_weighted_sum (d : vec) (l r : nat) (f : nat -> R) :
  length d = (l + r + 1)%nat -> (l + r < n)%nat ->
  sum_n (fun j => wrapped d l r n j * f j) n =
  sum_n (fun j => nth (l + j) d 0 * f j) (r + 1)
  + sum_n (fun j => nth j d 0 * f (n - l + j)%nat) l.
Proof.
  intros Hd Hm.
  set (g := fun j => wrapped d l r n j * f j).
  replace n with ((r + 1) + ((n - l - r - 1) + l))%nat at 1 by lia.
  rewrite (sum_n_add g (r + 1)), (sum_n_add _ (n - l - r - 1) l). unfold g.
  rewrite (sum_n_ext _ (fun j => nth (l + j) d 0 * f j) (r + 1)).
  2:{ intros j Hj. unfold wrapped. case_tests; try lia. do 2 f_equal. lia. }
  rewrite (sum_n_ext _ (fun _ => 0) (n - l - r - 1)).
  2:{ intros j Hj. unfold wrapped. case_tests; try lia. ring. }
  rewrite (sum_n_ext _ (fun j => nth j d 0 * f (n - l + j)%nat) l).
  2:{ intros j Hj. unfold wrapped. case_tests; try lia.
      f_equal; f_equal; lia. }
  rewrite sum_n_zero. ring.
Qed.

End Periodic_sums.

(** ** The norm stencil of [periodic_imp] is positive definite *)

Ltac expand_sums :=
  unfold W, W_terms, H_terms, tm, eval_terms, term_at, window, qh_corr,
    sum_n, qh, dH;
  cbn [map Rsum fold_right flat_map seq app nth Nat.sub Nat.add
       Nat.max Nat.min].

Lemma res_signs :
  0 < eps /\ res 1 <= 0 /\ 0 <= res 2 /\ 0 <= res 3 /\ 0 <= res 4 /\ 0 <= res 5.
Proof.
  unfold eps, res. expand_sums.
  unfold h0, h1, h2, h3, h4, h5.
  repeat split; lra.
Qed.

Lemma sq_nonneg (u : R) : 0 <= sq u.
Proof. unfold sq. nra. Qed.

Lemma W_lower (y : nat -> R) : eps * sq (y 0%nat) <= W y.
Proof.
  destruct res_signs as (_ & H1 & H2 & H3 & H4 & H5).
  unfold W.
  pose proof (sq_nonneg (sum_n (fun a => nth a qh 0 * y a) 6)).
  assert (H1' : 0 <= - res 1) by lra.
  pose proof (Rmult_le_pos _ _ H1' (sq_nonneg (y 0%nat - y 1%nat))).
  pose proof (Rmult_le_pos _ _ H2 (sq_nonneg (y 0%nat + y 2%nat))).
  pose proof (Rmult_le_pos _ _ H3 (sq_nonneg (y 0%nat + y 3%nat))).
  pose proof (Rmult_le_pos _ _ H4 (sq_nonneg (y 0%nat + y 4%nat))).
  pose proof (Rmult_le_pos _ _ H5 (sq_nonneg (y 0%nat + y 5%nat))).
  lra.
Qed.

Lemma W_as_terms (y : nat -> R) : W y = eval_terms W_terms y.
Proof. expand_sums. unfold sq. ring. Qed.

Lemma nth_matvec (A : matrix) (x : vec) (i : nat) :
  (i < length A)%nat -> nth i (Np.matvec A x) 0 = Np.dot (nth i A []) x.
Proof.
  intros Hi. unfold Np.matvec.
  rewrite (nth_map_default (fun row => Np.dot row x) A i []) by exact Hi.
  reflexivity.
Qed.

Lemma quad_form_sum (n : nat) (A : matrix) (x : vec) :
  shape n n A -> length x = n ->
  Np.dot x (Np.matvec A x) =
  sum_n (fun i => nth i x 0 * sum_n (fun t => entry A i t * nth t x 0) n) n.
Proof.
  intros HA Hx.
  rewrite (dot_sum _ _ n);
    [|exact Hx | unfold Np.matvec; rewrite length_map; apply HA].
  apply sum_n_ext. intros i Hi. f_equal.
  rewrite nth_matvec by (destruct HA; lia).
  apply dot_sum; [eauto using shape_row | exact Hx].
Qed.

Lemma H_terms_sum (n : nat) (x : vec) :
  (10 < n)%nat ->
  Rsum (map (fun t => let '(c, a, b) := t in c * corr_sum n x a b) (H_terms n))
  = norm_form n x.
Proof.
  intros Hn. expand_sums.
  change (corr_sum n x 0) with (auto_corr n x).
  replace (n - 5 + 0)%nat with (n - 5)%nat by lia.
  replace (n - 5 + 1)%nat with (n - 4)%nat by lia.
  replace (n - 5 + 2)%nat with (n - 3)%nat by lia.
  replace (n - 5 + 3)%nat with (n - 2)%nat by lia.
  replace (n - 5 + 4)%nat with (n - 1)%nat by lia.
  assert (Hpos : (0 < n)%nat) by lia.
  rewrite (auto_corr_reflect n Hpos x 5), (auto_corr_reflect n Hpos x 4),
    (auto_corr_reflect n Hpos x 3), (auto_corr_reflect n Hpos x 2),
    (auto_corr_reflect n Hpos x 1) by lia.
  unfold norm_form. ring.
Qed.

Lemma W_terms_sum (n : nat) (x : vec) :
  (0 < n)%nat ->
  Rsum (map (fun t => let '(c, a, b) := t in c * corr_sum n x a b) W_terms)
  = norm_form n x.
Proof.
  intros Hn. expand_sums.
  rewrite !(corr_sum_auto n Hn x).
  cbn [Nat.max Nat.min Nat.sub].
  unfold norm_form, eps, res. expand_sums. field.
Qed.

(** The quadratic form of the norm matrix is a sum of window forms. *)
Lemma norm_quadratic_form (n : nat) (h : R) (x vH : vec) :
  (10 < n)%nat -> length x = n -> length vH = n ->
  (forall j, nth j vH 0 = wrapped dH 5 5 n j) ->
  Np.dot x (Np.matvec (Np.scale h (circulant vH)) x) =
  h * sum_n (fun i => W (window n x i)) n.
Proof.
  intros Hn Hx HlH HvH.
  assert (Hpos : (0 < n)%nat) by lia.
  assert (Hsh : shape n n (circulant vH))
    by (rewrite <- HlH; apply shape_circulant).
  rewrite (quad_form_sum n) by auto using shape_scale.
  transitivity (sum_n (fun i => h * eval_terms (H_terms n) (window n x i)) n).
  { apply sum_n_ext. intros i Hi.
    rewrite (sum_n_ext _ (fun t => h * (entry (circulant vH) i t * nth t x 0)))
      by (intros; rewrite entry_scale; ring).
    rewrite sum_n_scal, (circulant_row_dot n Hpos x) by assumption.
    rewrite (sum_n_ext _ (fun s => wrapped dH 5 5 n s * xt n x (i + s)))
      by (intros; rewrite HvH; reflexivity).
    rewrite (wrapped_weighted_sum n Hpos dH 5 5 (fun s => xt n x (i + s)))
      by (try reflexivity; lia).
    rewrite <- (xt_small n x i) by exact Hi.
    replace (xt n x i) with (xt n x (i + 0)) by (f_equal; lia).
    expand_sums.
    replace (i + (n - 5 + 0))%nat with (i + (n - 5))%nat by lia.
    ring. }
  rewrite sum_n_scal, (sum_eval_terms n x), H_terms_sum by exact Hn.
  f_equal.
  rewrite (sum_n_ext _ (fun i => eval_terms W_terms (window n x i)))
    by (intros; apply W_as_terms).
  rewrite (sum_eval_terms n x), W_terms_sum by exact Hpos. reflexivity.
Qed.

Lemma entry_circulant_flip (v : vec) (i j : nat) :
  (i < length v)%nat -> (j < length v)%nat ->
  entry (circulant v) j i =
  nth ((length v - (j + length v - i) mod length v) mod length v) v 0.
Proof.
  intros Hi Hj. rewrite entry_circulant by assumption.
  set (m := length v) in *. f_equal.
  destruct (lt_eq_lt_dec i j) as [[Hlt| -> ]|Hgt].
  - replace (j + m - i)%nat with ((j - i) + 1 * m)%nat by lia.
    rewrite Nat.Div0.mod_add, (Nat.mod_small (j - i)) by lia.
    rewrite !Nat.mod_small by lia. lia.
  - replace (j + m - j)%nat with m by lia.
    rewrite Nat.Div0.mod_same, Nat.sub_0_r, Nat.Div0.mod_same. reflexivity.
  - replace (i + m - j)%nat with ((i - j) + 1 * m)%nat by lia.
    rewrite Nat.Div0.mod_add, (Nat.mod_small (i - j)) by lia.
    rewrite (Nat.mod_small (j + m - i)) by lia.
    rewrite Nat.mod_small by lia. lia.
Qed.

Lemma wrapped_sym (d : vec) (l m k : nat) :
  length d = (l + l + 1)%nat -> symmetric d l ->
  (l + l < m)%nat -> (k < m)%nat ->
  wrapped d l l m k = wrapped d l l m ((m - k) mod m).
Proof.
  intros Hd Ha Hm Hk.
  destruct (decide (k = 0%nat)) as [ -> |Hk0].
  - rewrite Nat.sub_0_r, Nat.Div0.mod_same. reflexivity.
  - rewrite Nat.mod_small by lia.
    unfold wrapped. case_tests; try lia; try reflexivity.
    + pose proof (Ha (m - k)%nat ltac:(lia)) as Hsym.
      replace (l - (m - k))%nat with (l + k - m)%nat in Hsym by lia.
      replace (m - k + l)%nat with (l + (m - k))%nat by lia. lra.
    + pose proof (Ha k ltac:(lia)) as Hsym.
      replace (l + (m - k) - m)%nat with (l - k)%nat by lia.
      replace (k + l)%nat with (l + k)%nat by lia. lra.
Qed.

Lemma circulant_transpose_sym (d : vec) (l : nat) (h : R) (v : vec) :
  length d = (l + l + 1)%nat -> symmetric d l ->
  (l + l < length v)%nat ->
  (forall j, nth j v 0 = wrapped d l l (length v) j) ->
  Np.transpose (Np.scale h (circulant v)) = Np.scale h (circulant v).
Proof.
  intros Hd Hs Hm Hv.
  assert (Hsh : shape (length v) (length v) (Np.scale h (circulant v)))
    by (apply shape_scale, shape_circulant).
  apply (matrix_ext (length v) (length v));
    [apply shape_transpose; [exact Hsh | lia] | exact Hsh |].
  intros i j Hi Hj.
  rewrite (entry_transpose (length v) (length v)) by assumption.
  rewrite !entry_scale. f_equal.
  rewrite entry_circulant_flip, (entry_circulant v i j) by assumption.
  rewrite !Hv. symmetry. apply wrapped_sym; auto.
  apply Nat.mod_upper_bound. lia.
Qed.

Lemma symmetric_dH : symmetric dH 5.
Proof.
  intros k Hk. do 6 (destruct k as [|k]; [reflexivity|]). lia.
Qed.

Lemma antisymmetric_dQ : antisymmetric dQ 5.
Proof.
  intros k Hk. do 6 (destruct k as [|k]; [simpl; lra|]). lia.
Qed.

Lemma sum_n_ge_term (g : nat -> R) (n i0 : nat) :
  (forall i, 0 <= g i) -> (i0 < n)%nat -> g i0 <= sum_n g n.
Proof.
  intros Hg. induction n as [|n IH]; intros Hi; [lia|].
  rewrite sum_n_S.
  assert (0 <= sum_n g n).
  { rewrite <- (sum_n_zero n). apply sum_n_le. intros. apply Hg. }
  destruct (decide (i0 = n)) as [ -> |Hne].
  - lra.
  - pose proof (Hg n). assert (g i0 <= sum_n g n) by (apply IH; lia). lra.
Qed.

Lemma nonzero_entry (x : vec) :
  x <> replicate (length x) 0 ->
  exists i, (i < length x)%nat /\ nth i x 0 <> 0.
Proof.
  induction x as [|a x IH]; intros Hne; [contradiction Hne; reflexivity|].
  destruct (Req_dec_T a 0) as [ -> |Ha].
  - destruct IH as (i & Hi & Hnz).
    + intros E. apply Hne. simpl. rewrite <- E. reflexivity.
    + exists (S i). simpl. split; [lia | exact Hnz].
  - exists 0%nat. simpl. split; [lia | exact Ha].
Qed.

Lemma norm_positive_definite (n : nat) (h : R) (vH : vec) :
  (10 < n)%nat -> 0 < h -> length vH = n ->
  (forall j, nth j vH 0 = wrapped dH 5 5 n j) ->
  positive_definite n (Np.scale h (circulant vH)).
Proof.
  intros Hn Hh HlH HvH x Hx Hne.
  rewrite (norm_quadratic_form n h x vH) by assumption.
  apply Rmult_lt_0_compat; [exact Hh|].
  rewrite <- Hx in Hne. destruct (nonzero_entry x Hne) as (i0 & Hi0 & Hnz).
  rewrite Hx in Hi0.
  destruct res_signs as (Heps & _).
  apply Rlt_le_trans with (eps * sq (nth i0 x 0)).
  - apply Rmult_lt_0_compat; [exact Heps|]. unfold sq. nra.
  - apply Rle_trans with (sum_n (fun i => eps * sq (xt n x (i + 0))) n).
    + rewrite <- (xt_small n x i0) by exact Hi0.
      replace i0 with (i0 + 0)%nat at 1 by lia.
      apply (sum_n_ge_term (fun i => eps * sq (xt n x (i + 0)))); [|exact Hi0].
      intros i. apply Rmult_le_pos; [lra | apply sq_nonneg].
    + apply sum_n_le. intros i _. apply (W_lower (window n x i)).
Qed.

(** C7: for [m > 10] and [h > 0], [periodic_imp(m, h, use_AD=False)]
    returns [H] symmetric and positive definite and [Q] skew-symmetric. *)
Theorem C7_periodic_imp_spd (m : Z) (h : R) :
  (10 < m)%Z -> 0 < h ->
  exists H Q : matrix,
    periodic_imp m h false = Ok (H, Q)
    /\ Np.transpose H = H
    /\ positive_definite (Z.to_nat m) H
    /\ Np.add Q (Np.transpose Q) = zero_matrix (Z.to_nat m) (Z.to_nat m).
Proof.
  intros Hm Hh.
  set (n := Z.to_nat m).
  assert (Hn : (10 < n)%nat) by lia.
  replace m with (Z.of_nat n) by lia.
  destruct (periodic_imp_run n h)
    as (vQ & vH & HlQ & HlH & HQ & HH & _ & _ & E); [lia|].
  exists (Np.scale h (circulant vH)), (circulant vQ).
  split; [exact E|]. split; [|split].
  - apply (circulant_transpose_sym dH 5); try reflexivity;
      [apply symmetric_dH | lia | rewrite HlH; exact HH].
  - apply norm_positive_definite; assumption.
  - apply add_transpose_zero; [lia | rewrite <- HlQ; apply shape_circulant |].
    rewrite <- HlQ. apply (wrapped_vector_skew dQ 5); try reflexivity;
      [apply antisymmetric_dQ | lia | rewrite HlQ; exact HQ].
Qed.

Lemma C7_periodic_imp_spd_witness :
  exists H Q : matrix,
    periodic_imp 11 1 false = Ok (H, Q)
    /\ Np.transpose H = H
    /\ positive_definite (Z.to_nat 11) H
    /\ Np.add Q (Np.transpose Q) = zero_matrix (Z.to_nat 11) (Z.to_nat 11).
Proof.
  apply (C7_periodic_imp_spd 11 1); [lia | lra].
Defined.

(** ** Blocks, diagonals and outer products *)

Lemma has_shape_true (n k : nat) (V : matrix) :
  shape n k V -> Np.has_shape n k V = true.
Proof.
  intros [Hn Hk]. unfold Np.has_shape.
  apply andb_true_iff. split; [apply Nat.eqb_eq; exact Hn|].
  apply forallb_forall. intros row Hrow. apply Nat.eqb_eq.
  rewrite Forall_forall in Hk. apply Hk, list_elem_of_In. exact Hrow.
Qed.

Lemma has_shape_rows (n k : nat) (V : matrix) :
  length V <> n -> Np.has_shape n k V = false.
Proof.
  intros Hne. unfold Np.has_shape.
  apply andb_false_iff. left. apply Nat.eqb_neq. exact Hne.
Qed.

Lemma nrows_ncols (n k : nat) (A : matrix) :
  shape n k A -> (0 < n)%nat -> Np.nrows A = n /\ Np.ncols A = k.
Proof.
  intros HA Hn. split; [apply HA|].
  unfold Np.ncols. rewrite <- (shape_row n k A 0 HA Hn).
  destruct A; reflexivity.
Qed.

Lemma set_lead_ok (b n : nat) (A V : matrix) :
  shape n n A -> shape b b V -> (b <= n)%nat -> (0 < n)%nat ->
  Np.set_lead b A V =
  Ok (mk_matrix n n (fun i j => if ((i <? b) && (j <? b))%nat
                                then entry V i j else entry A i j)).
Proof.
  intros HA HV Hb Hn. unfold Np.set_lead.
  destruct (nrows_ncols n n A HA Hn) as [-> ->].
  rewrite Nat.min_l by exact Hb.
  rewrite has_shape_true by exact HV. reflexivity.
Qed.

Lemma set_lead_small (b n : nat) (A V : matrix) :
  shape n n A -> shape b b V -> (n < b)%nat -> (0 < n)%nat ->
  Np.set_lead b A V = Raise ValueError.
Proof.
  intros HA HV Hb Hn. unfold Np.set_lead.
  destruct (nrows_ncols n n A HA Hn) as [-> ->].
  rewrite Nat.min_r by lia.
  rewrite has_shape_rows by (destruct HV; lia). reflexivity.
Qed.

Lemma set_trail_ok (b n : nat) (A V : matrix) :
  shape n n A -> shape b b V -> (b <= n)%nat -> (0 < n)%nat ->
  Np.set_trail b A V =
  Ok (mk_matrix n n (fun i j => if ((n - b <=? i) && (n - b <=? j))%nat
                                then entry V (i - (n - b)) (j - (n - b))
                                else entry A i j)).
Proof.
  intros HA HV Hb Hn. unfold Np.set_trail.
  destruct (nrows_ncols n n A HA Hn) as [-> ->].
  rewrite Nat.min_l by exact Hb.
  rewrite has_shape_true by exact HV. reflexivity.
Qed.

Lemma shape_get_lead (b n : nat) (A : matrix) :
  shape n n A -> (b <= n)%nat -> (0 < n)%nat -> shape b b (Np.get_lead b A).
Proof.
  intros HA Hb Hn. unfold Np.get_lead.
  destruct (nrows_ncols n n A HA Hn) as [-> ->].
  rewrite Nat.min_l by exact Hb. apply shape_mk_matrix.
Qed.

Lemma shape_flipud (n k : nat) (A : matrix) :
  shape n k A -> shape n k (Np.flipud A).
Proof.
  intros [Hn Hk]. unfold Np.flipud. split.
  - rewrite length_rev. exact Hn.
  - apply Forall_forall. intros row Hrow. rewrite Forall_forall in Hk.
    apply Hk. apply list_elem_of_In. apply in_rev.
    apply list_elem_of_In. exact Hrow.
Qed.

Lemma shape_fliplr (n k : nat) (A : matrix) :
  shape n k A -> shape n k (Np.fliplr A).
Proof.
  intros [Hn Hk]. unfold Np.fliplr. split.
  - rewrite length_map. exact Hn.
  - apply Forall_fmap. eapply Forall_impl; [exact Hk|].
    intros row Hrow. simpl. rewrite length_rev. exact Hrow.
Qed.

Lemma shape_mneg (n k : nat) (A : matrix) :
  shape n k A -> shape n k (Np.mneg A).
Proof.
  intros [Hn Hk]. unfold Np.mneg. split.
  - rewrite length_map. exact Hn.
  - apply Forall_fmap. eapply Forall_impl; [exact Hk|].
    intros row Hrow. simpl. rewrite length_map. exact Hrow.
Qed.

Lemma entry_mneg (A : matrix) (i j : nat) :
  entry (Np.mneg A) i j = - entry A i j.
Proof.
  unfold entry, Np.mneg.
  destruct (le_lt_dec (length A) i) as [Hi|Hi].
  - rewrite (nth_overflow (map _ A)), (nth_overflow A)
      by (rewrite ?length_map; lia).
    destruct j; simpl; ring.
  - rewrite (nth_indep _ [] (map Ropp [])) by (rewrite length_map; lia).
    rewrite (map_nth (map Ropp) A [] i).
    destruct (le_lt_dec (length (nth i A [])) j) as [Hj|Hj].
    + rewrite !nth_overflow by (rewrite ?length_map; lia). ring.
    + rewrite (nth_indep _ 0 (- 0)) by (rewrite length_map; lia).
      apply (map_nth Ropp).
Qed.

Lemma shape_outer (x y : vec) : shape (length x) (length y) (Np.outer x y).
Proof. apply shape_mk_matrix. Qed.

Lemma diag_k_ones (n a : nat) (k : Z) :
  Z.abs_nat k = a -> (a <= n)%nat ->
  Np.diag_k (replicate (n - a) 1) k =
  mk_matrix n n (fun i j => if (Z.of_nat j - Z.of_nat i =? k)%Z then 1 else 0).
Proof.
  intros Ha Hn. unfold Np.diag_k. rewrite length_replicate, Ha.
  replace (n - a + a)%nat with n by lia.
  apply (matrix_ext n n); auto using shape_mk_matrix.
  intros i j Hi Hj. rewrite !entry_mk_matrix by assumption.
  destruct (Z.of_nat j - Z.of_nat i =? k)%Z eqn:E; [|reflexivity].
  to_prop.
  rewrite (nth_indep _ 0 1) by (rewrite length_replicate; lia).
  apply nth_replicate.
Qed.

Lemma ones_sub (n : nat) (d : Z) :
  (0 <= d <= Z.of_nat n)%Z ->
  Np.ones (Z.of_nat n - d) = Ok (replicate (n - Z.to_nat d) 1).
Proof.
  intros Hd. unfold Np.ones.
  replace (Z.of_nat n - d <? 0)%Z with false by (symmetry; apply Z.ltb_ge; lia).
  do 2 f_equal. lia.
Qed.

Lemma ones_full (n : nat) : Np.ones (Z.of_nat n) = Ok (replicate (n - 0) 1).
Proof. rewrite Nat.sub_0_r. apply ones_zeros_of_nat. Qed.

Ltac run_interior n :=
  rewrite ?ones_full, ?ones_sub by lia;
  cbn [mbind result_bind];
  try change (Z.to_nat 1) with 1%nat;
  try change (Z.to_nat 2) with 2%nat;
  try change (Z.to_nat 3) with 3%nat;
  try change (Z.to_nat 4) with 4%nat;
  rewrite ?(diag_k_ones n 0 0), ?(diag_k_ones n 1 1), ?(diag_k_ones n 1 (-1)),
    ?(diag_k_ones n 2 2), ?(diag_k_ones n 2 (-2)), ?(diag_k_ones n 3 3),
    ?(diag_k_ones n 3 (-3)), ?(diag_k_ones n 4 4) by (try reflexivity; lia).

Ltac shape_bands :=
  repeat first [ apply shape_add | apply shape_sub | apply shape_scale
               | apply shape_mk_matrix ].

Lemma interior_3rd_ok (n : nat) :
  (4 <= n)%nat ->
  exists Q0 : matrix,
    interior_3rd (Z.of_nat n) = Ok Q0
    /\ shape n n Q0
    /\ forall i j, (i < n)%nat -> (j < n)%nat ->
         entry Q0 i j =
         -1/3 * band (-1) i j - 1/2 * band 0 i j + 1 * band 1 i j
         - 1/6 * band 2 i j.
Proof.
  intros Hn. unfold interior_3rd. run_interior n.
  eexists. split; [reflexivity|]. split; [shape_bands|].
  intros i j Hi Hj.
  repeat first [ rewrite (entry_sub n n) by shape_bands
               | rewrite (entry_add n n) by shape_bands
               | rewrite entry_scale ].
  rewrite !entry_mk_matrix by assumption. reflexivity.
Qed.

Lemma interior_5th_ok (n : nat) :
  (4 <= n)%nat ->
  exists Q0 : matrix, interior_5th (Z.of_nat n) = Ok Q0 /\ shape n n Q0.
Proof.
  intros Hn. unfold interior_5th. run_interior n.
  eexists. split; [reflexivity | shape_bands].
Qed.

Lemma interior_7th_ok (n : nat) :
  (6 <= n)%nat ->
  exists Q0 : matrix, interior_7th (Z.of_nat n) = Ok Q0 /\ shape n n Q0.
Proof.
  intros Hn. unfold interior_7th. run_interior n.
  eexists. split; [reflexivity | shape_bands].
Qed.

(** ** What the upwind builders compute *)

Lemma upwind_Qp_ok (b n : nat) (interior : Z -> result matrix) (Qu Q0 : matrix) :
  (0 < b)%nat -> (b <= n)%nat -> shape b b Qu ->
  interior (Z.of_nat n) = Ok Q0 -> shape n n Q0 ->
  exists Qp : matrix,
    upwind_Qp b interior Qu (Z.of_nat n) = Ok Qp
    /\ shape n n Qp
    /\ forall i j, (i < n)%nat -> (j < n)%nat ->
         entry Qp i j =
         if ((n - b <=? i) && (n - b <=? j))%nat
         then entry (Np.transpose (Np.flipud (Np.fliplr Qu)))
                    (i - (n - b)) (j - (n - b))
         else if ((i <? b) && (j <? b))%nat then entry Qu i j
         else entry Q0 i j.
Proof.
  intros Hb Hbn HQu Hint HQ0. unfold upwind_Qp.
  rewrite Hint. cbn [mbind result_bind].
  rewrite (set_lead_ok b n) by (auto; lia). cbn [mbind result_bind].
  rewrite (set_trail_ok b n);
    [| apply shape_mk_matrix
     | apply shape_transpose; [apply shape_flipud, shape_fliplr; exact HQu | exact Hb]
     | exact Hbn | lia].
  eexists. split; [reflexivity|]. split; [apply shape_mk_matrix|].
  intros i j Hi Hj. rewrite !entry_mk_matrix by assumption. reflexivity.
Qed.

Lemma boundary_vectors_ok (n : nat) :
  (0 < n)%nat ->
  boundary_vectors (Z.of_nat n) =
  Ok (<[0%nat := 1]> (replicate n 0), <[(n - 1)%nat := 1]> (replicate n 0)).
Proof.
  intros Hn. unfold boundary_vectors.
  destruct (ones_zeros_of_nat n) as [_ ->]. cbn [mbind result_bind].
  unfold Py.setitem, Py.index. rewrite length_replicate.
  replace ((0 <=? 0)%Z && (0 <? Z.of_nat n)%Z) with true
    by (symmetry; apply andb_true_iff; split; [apply Z.leb_le | apply Z.ltb_lt]; lia).
  cbn [mbind result_bind].
  replace ((0 <=? -1)%Z && (-1 <? Z.of_nat n)%Z) with false by reflexivity.
  replace ((- Z.of_nat n <=? -1)%Z && (-1 <? 0)%Z) with true
    by (symmetry; apply andb_true_iff; split; [apply Z.leb_le | apply Z.ltb_lt]; lia).
  cbn [mbind result_bind].
  replace (Z.to_nat (Z.of_nat n + -1)) with (n - 1)%nat by lia.
  reflexivity.
Qed.

Lemma boundary_vectors_empty : boundary_vectors 0 = Raise IndexError.
Proof. reflexivity. Qed.

Lemma boundary_vectors_negative (m : Z) :
  (m < 0)%Z -> boundary_vectors m = Raise ValueError.
Proof.
  intros Hm. unfold boundary_vectors, Np.zeros.
  replace (m <? 0)%Z with true by (symmetry; apply Z.ltb_lt; exact Hm).
  reflexivity.
Qed.

Lemma shape_diag_ones (n : nat) : shape n n (Np.diag (replicate n 1)).
Proof.
  pose proof (shape_diag (replicate n 1)) as H.
  rewrite length_replicate in H. exact H.
Qed.

Lemma norm_matrix_ok (b n : nat) (w : vec) (h : R) :
  (0 < b)%nat -> (b <= n)%nat -> length w = b ->
  exists H : matrix,
    norm_matrix b w (Z.of_nat n) h = Ok H /\ shape n n H.
Proof.
  intros Hb Hbn Hw. unfold norm_matrix.
  destruct (ones_zeros_of_nat n) as [-> _]. cbn [mbind result_bind].
  assert (HD : shape b b (Np.diag w)) by (rewrite <- Hw; apply shape_diag).
  rewrite (set_lead_ok b n) by (auto using shape_diag_ones; lia).
  cbn [mbind result_bind].
  rewrite (set_trail_ok b n);
    [| apply shape_mk_matrix
     | apply shape_fliplr, shape_flipud, (shape_get_lead b n);
       [apply shape_mk_matrix | exact Hbn | lia]
     | exact Hbn | lia].
  eexists. split; [reflexivity|]. apply shape_scale, shape_mk_matrix.
Qed.

Lemma norm_matrix_small (b n : nat) (w : vec) (h : R) :
  (0 < n)%nat -> (n < b)%nat -> length w = b ->
  norm_matrix b w (Z.of_nat n) h = Raise ValueError.
Proof.
  intros Hn Hbn Hw. unfold norm_matrix.
  destruct (ones_zeros_of_nat n) as [-> _]. cbn [mbind result_bind].
  assert (HD : shape b b (Np.diag w)) by (rewrite <- Hw; apply shape_diag).
  rewrite (set_lead_small b n) by (auto using shape_diag_ones). reflexivity.
Qed.

(** The three outcomes of an upwind builder: nothing is built on fewer
    than [b] points; from [b] points on, only the inversion can fail. *)
Lemma sbp_upwind_outcome (inv : matrix -> result matrix)
      (b : nat) (w : vec) (interior : Z -> result matrix) (Qu : matrix)
      (m : Z) (h : R) :
  (0 < b)%nat -> length w = b -> shape b b Qu ->
  (forall n, (b <= n)%nat ->
             exists Q0, interior (Z.of_nat n) = Ok Q0 /\ shape n n Q0) ->
  ((m < 0)%Z /\ sbp_upwind inv b w interior Qu m h = Raise ValueError)
  \/ (m = 0%Z /\ sbp_upwind inv b w interior Qu m h = Raise IndexError)
  \/ ((0 < m < Z.of_nat b)%Z
      /\ sbp_upwind inv b w interior Qu m h = Raise ValueError)
  \/ ((Z.of_nat b <= m)%Z
      /\ exists H : matrix,
           norm_matrix b w m h = Ok H
           /\ (forall e, inv H = Raise e ->
                         sbp_upwind inv b w interior Qu m h = Raise e)
           /\ (returns (inv H) ->
               returns (sbp_upwind inv b w interior Qu m h))).
Proof.
  intros Hb Hw HQu Hint. unfold sbp_upwind.
  destruct (Z_lt_le_dec m 0) as [Hneg|Hpos].
  { left. split; [exact Hneg|].
    rewrite boundary_vectors_negative by exact Hneg. reflexivity. }
  right. destruct (Z.eq_dec m 0%Z) as [ -> |Hnz].
  { left. split; reflexivity. }
  right. rewrite <- (Z2Nat.id m) by exact Hpos. set (n := Z.to_nat m).
  assert (Hn : (0 < n)%nat) by lia.
  rewrite boundary_vectors_ok by exact Hn. cbn [mbind result_bind].
  destruct (le_lt_dec b n) as [Hbn|Hbn].
  - right. split; [lia|].
    destruct (norm_matrix_ok b n w h Hb Hbn Hw) as (H & EH & HH).
    destruct (Hint n Hbn) as (Q0 & EQ0 & HQ0).
    destruct (upwind_Qp_ok b n interior Qu Q0 Hb Hbn HQu EQ0 HQ0)
      as (Qp & EQp & _).
    exists H. split; [exact EH|]. rewrite EH. cbn [mbind result_bind]. split.
    + intros e He. rewrite He. reflexivity.
    + intros [HI He]. rewrite He. cbn [mbind result_bind].
      rewrite EQp. cbn [mbind result_bind]. unfold returns. eauto.
  - left. split; [lia|].
    rewrite norm_matrix_small by assumption. reflexivity.
Qed.

Lemma sbp_upwind_of_eq inv o m h :
  sbp_upwind_of inv o m h =
  sbp_upwind inv (closure_width o) (norm_weights o) (interior_of o) (closure o) m h.
Proof. destruct o; reflexivity. Qed.

Lemma shape_closure (o : upwind_order) :
  shape (closure_width o) (closure_width o) (closure o).
Proof. destruct o; (split; [reflexivity | repeat constructor]). Qed.

Lemma length_norm_weights (o : upwind_order) :
  length (norm_weights o) = closure_width o.
Proof. destruct o; reflexivity. Qed.

Lemma interior_of_ok (o : upwind_order) (n : nat) :
  (closure_width o <= n)%nat ->
  exists Q0 : matrix, interior_of o (Z.of_nat n) = Ok Q0 /\ shape n n Q0.
Proof.
  destruct o; simpl; intros Hn.
  - destruct (interior_3rd_ok n Hn) as (Q0 & E & H & _). eauto.
  - apply interior_5th_ok. exact Hn.
  - apply interior_7th_ok. exact Hn.
Qed.

Lemma Qp_of_ok (o : upwind_order) (n : nat) :
  (closure_width o <= n)%nat ->
  exists Qp : matrix, Qp_of o (Z.of_nat n) = Ok Qp /\ shape n n Qp.
Proof.
  intros Hn. destruct (interior_of_ok o n Hn) as (Q0 & E & HQ0).
  destruct (upwind_Qp_ok (closure_width o) n (interior_of o) (closure o) Q0)
    as (Qp & EQp & HQp & _); auto using shape_closure.
  - destruct o; simpl; lia.
  - exists Qp. split; assumption.
Qed.

Lemma entry_outer (x y : vec) (i j : nat) :
  (i < length x)%nat -> (j < length y)%nat ->
  entry (Np.outer x y) i j = nth i x 0 * nth j y 0.
Proof. intros Hi Hj. unfold Np.outer. apply entry_mk_matrix; assumption. Qed.

(** [Qm = -Qp.T] cancels [Qp], and the two corrected matrices together
    give the boundary form. *)
Lemma upwind_pair_identity (n : nat) (Qp : matrix) (e_l e_r : vec) :
  (0 < n)%nat -> shape n n Qp -> length e_l = n -> length e_r = n ->
  let Qm := Np.mneg (Np.transpose Qp) in
  Np.add Qp (Np.transpose Qm) = zero_matrix n n
  /\ Np.add (corrected Qp e_l e_r) (Np.transpose (corrected Qm e_l e_r)) =
     Np.sub (Np.outer e_r e_r) (Np.outer e_l e_l).
Proof.
  intros Hn HQp Hl Hr Qm.
  assert (HL : shape n n (Np.outer e_l e_l))
    by (pose proof (shape_outer e_l e_l) as H; rewrite Hl in H; exact H).
  assert (HR : shape n n (Np.outer e_r e_r))
    by (pose proof (shape_outer e_r e_r) as H; rewrite Hr in H; exact H).
  assert (HQm : shape n n Qm)
    by (apply shape_mneg, shape_transpose; assumption).
  assert (Hc : forall Q, shape n n Q -> shape n n (corrected Q e_l e_r))
    by (intros Q HQ; unfold corrected; auto using shape_add, shape_sub, shape_scale).
  assert (Hce : forall Q i j, shape n n Q -> (i < n)%nat -> (j < n)%nat ->
            entry (corrected Q e_l e_r) i j =
            entry Q i j - 0.5 * (nth i e_l 0 * nth j e_l 0)
            + 0.5 * (nth i e_r 0 * nth j e_r 0)).
  { intros Q i j HQ Hi Hj. unfold corrected.
    rewrite (entry_add n n), (entry_sub n n), !entry_scale
      by auto using shape_sub, shape_scale.
    rewrite !entry_outer by lia. reflexivity. }
  assert (HQme : forall i j, (i < n)%nat -> (j < n)%nat ->
            entry Qm i j = - entry Qp j i).
  { intros i j Hi Hj. unfold Qm.
    rewrite entry_mneg, (entry_transpose n n) by assumption. reflexivity. }
  split.
  - apply (matrix_ext n n);
      [apply shape_add; auto using shape_transpose | apply shape_mk_matrix |].
    intros i j Hi Hj.
    rewrite (entry_add n n), (entry_transpose n n), HQme
      by auto using shape_transpose.
    unfold zero_matrix. rewrite entry_mk_matrix by assumption. ring.
  - apply (matrix_ext n n);
      [apply shape_add; auto using shape_transpose | apply shape_sub; assumption |].
    intros i j Hi Hj.
    rewrite (entry_add n n), (entry_transpose n n), (entry_sub n n)
      by auto using shape_transpose.
    rewrite !Hce, HQme, !entry_outer by (assumption || lia).
    lra.
Qed.

Lemma Qp_3rd_interior_diagonal (n : nat) :
  (9 <= n)%nat ->
  exists Qp : matrix,
    Qp_of Third (Z.of_nat n) = Ok Qp /\ shape n n Qp
    /\ entry Qp 4 4 = -1/2.
Proof.
  intros Hn.
  destruct (interior_3rd_ok n) as (Q0 & E & HQ0 & Hent); [lia|].
  destruct (upwind_Qp_ok 4 n interior_3rd Qu_3rd Q0)
    as (Qp & EQp & HQp & HentQp);
    [lia | lia | exact (shape_closure Third) | exact E | exact HQ0 |].
  exists Qp. split; [exact EQp|]. split; [exact HQp|].
  rewrite HentQp, Hent by lia.
  replace ((n - 4 <=? 4)%nat) with false by (symmetry; apply Nat.leb_gt; lia).
  cbn [andb Nat.ltb Nat.leb]. unfold band. simpl. lra.
Qed.




(** ** Small grids *)

Lemma periodic_imp_outcome (m : Z) (h : R) (use_AD : bool) :
  ((m < 0)%Z /\ periodic_imp m h use_AD = Raise ValueError)
  \/ ((0 <= m <= (if use_AD then 6 else 5))%Z
      /\ periodic_imp m h use_AD = Raise IndexError)
  \/ (((if use_AD then 6 else 5) < m)%Z
      /\ exists H Q : matrix, periodic_imp m h use_AD = Ok (H, Q)).
Proof.
  destruct (Z_lt_le_dec m 0) as [Hneg|Hpos].
  { left. split; [exact Hneg|].
    unfold periodic_imp. cbv zeta. fold dQ.
    rewrite (stencil_vector_negative dQ) by exact Hneg. reflexivity. }
  right. rewrite <- (Z2Nat.id m) by exact Hpos. set (n := Z.to_nat m).
  destruct (le_lt_dec n 5) as [H5|H5].
  { left. split; [destruct use_AD; lia|].
    unfold periodic_imp. cbv zeta. fold dQ.
    pose proof (stencil_vector_short dQ 5 5 n eq_refl H5) as Hshort.
    change (Z.of_nat 5) with 5%Z in Hshort. rewrite Hshort.
    reflexivity. }
  destruct (periodic_imp_run n h H5)
    as (vQ & vH & _ & _ & _ & _ & EQ & EH & E).
  destruct use_AD.
  - destruct (le_lt_dec n 6) as [H6|H6].
    + left. split; [lia|].
      unfold periodic_imp. cbv zeta. fold dQ. fold dH. fold dS12.
      rewrite EQ. cbn [mbind result_bind]. rewrite EH. cbn [mbind result_bind].
      pose proof (stencil_vector_short dS12 6 6 n eq_refl H6) as Hshort.
      change (Z.of_nat 6) with 6%Z in Hshort. rewrite Hshort.
      reflexivity.
    + right. split; [lia|].
      destruct (periodic_imp_run_AD n h H6)
        as (? & ? & ? & _ & _ & _ & _ & _ & _ & _ & _ & E'). eauto.
  - right. split; [lia|]. eauto.
Qed.

(** C3, refuted as stated: with [m = 2] and [order = 2] the grid is too
    small for the stencil ([m <= 2*l]), and [periodic_expl] returns the
    overlapped matrices without raising anything. *)
Lemma C3_counterexample :
  supported 2 /\ (2 <= 2 * half_width 2)%Z
  /\ periodic_expl 2 1 2 false =
     Ok (Np.scale 1 [[1; 0]; [0; 1]], [[0; -0.5]; [-0.5; 0]]).
Proof.
  split; [left; reflexivity|]. split; [unfold half_width; simpl; lia|].
  vm_compute. reflexivity.
Qed.

(** C3, amended: no builder checks the grid size, and a grid that is too
    small fails only where an array operation fails.  [periodic_expl] on a
    supported order of half-width [l] raises [ValueError] for [m < 0] and
    [IndexError] for [0 <= m <= l], and returns for every [m > l];
    [periodic_imp] does the same with [l = 5], or [6] with dissipation; an
    upwind builder of closure width [b] raises [ValueError] for [m < 0] and
    for [0 < m < b], [IndexError] for [m = 0], and from [b] points on fails
    only when the inversion of [H] fails.  [periodic_expl] with [m = 2] and
    [order = 12] fails with [IndexError]. *)
Theorem C3_small_grids (inv : matrix -> result matrix) (m : Z) (h : R)
        (order : Z) (use_AD : bool) (o : upwind_order) :
  supported order ->
  (((m < 0)%Z /\ periodic_expl m h order use_AD = Raise ValueError)
   \/ ((0 <= m <= half_width order)%Z
       /\ periodic_expl m h order use_AD = Raise IndexError)
   \/ ((half_width order < m)%Z
       /\ exists H Q, periodic_expl m h order use_AD = Ok (H, Q)))
  /\ (((m < 0)%Z /\ periodic_imp m h use_AD = Raise ValueError)
      \/ ((0 <= m <= (if use_AD then 6 else 5))%Z
          /\ periodic_imp m h use_AD = Raise IndexError)
      \/ (((if use_AD then 6 else 5) < m)%Z
          /\ exists H Q : matrix, periodic_imp m h use_AD = Ok (H, Q)))
  /\ (((m < 0)%Z /\ sbp_upwind_of inv o m h = Raise ValueError)
      \/ (m = 0%Z /\ sbp_upwind_of inv o m h = Raise IndexError)
      \/ ((0 < m < Z.of_nat (closure_width o))%Z
          /\ sbp_upwind_of inv o m h = Raise ValueError)
      \/ ((Z.of_nat (closure_width o) <= m)%Z
          /\ exists H : matrix,
               norm_matrix (closure_width o) (norm_weights o) m h = Ok H
               /\ (forall e, inv H = Raise e ->
                             sbp_upwind_of inv o m h = Raise e)
               /\ (returns (inv H) -> returns (sbp_upwind_of inv o m h))))
  /\ periodic_expl 2 h 12 use_AD = Raise IndexError.
Proof.
  intros Hs. split; [|split; [|split]].
  - apply periodic_expl_outcome. exact Hs.
  - apply periodic_imp_outcome.
  - rewrite sbp_upwind_of_eq. apply sbp_upwind_outcome.
    + destruct o; simpl; lia.
    + apply length_norm_weights.
    + apply shape_closure.
    + apply interior_of_ok.
  - destruct (periodic_expl_outcome 2 h 12 use_AD) as [[H _]|[[_ E]|[H _]]].
    + unfold supported. auto 10.
    + lia.
    + exact E.
    + unfold half_width in H. simpl in H. lia.
Qed.

Lemma C3_small_grids_witness :
  periodic_expl 2 1 12 false = Raise IndexError.
Proof.
  apply (C3_small_grids (fun A => Ok A) 2 1 12 false Third).
  unfold supported. auto 10.
Defined.

(** ** Exactness on polynomials *)

Lemma lin_ext (A : list (R * R)) (g g' : R -> R) :
  (forall t, g t = g' t) -> lin A g = lin A g'.
Proof.
  intros E. unfold lin. f_equal. apply map_ext. intros co. rewrite E. reflexivity.
Qed.

Lemma lin_plus (A : list (R * R)) (g g' : R -> R) :
  lin A (fun t => g t + g' t) = lin A g + lin A g'.
Proof.
  unfold lin. induction A as [|co A IH]; simpl; [ring|]. rewrite IH. ring.
Qed.

Lemma lin_scal (A : list (R * R)) (c : R) (g : R -> R) :
  lin A (fun t => c * g t) = c * lin A g.
Proof.
  unfold lin. induction A as [|co A IH]; simpl; [ring|]. rewrite IH. ring.
Qed.

Lemma lin_zero (A : list (R * R)) : lin A (fun _ => 0) = 0.
Proof.
  unfold lin. induction A as [|co A IH]; simpl; [reflexivity|]. rewrite IH. ring.
Qed.

Lemma lin_sum (A : list (R * R)) (F : nat -> R -> R) (N : nat) :
  lin A (fun t => sum_n (fun k => F k t) N) = sum_n (fun k => lin A (F k)) N.
Proof.
  induction N as [|N IH].
  - apply lin_zero.
  - rewrite sum_n_S, <- IH, <- lin_plus. apply lin_ext.
    intros t. rewrite sum_n_S. reflexivity.
Qed.

Lemma pow_scale (h t : R) (k : nat) :
  h ^ k * (INR k * t ^ (k - 1)) = h * (INR k * (t * h) ^ (k - 1)).
Proof.
  destruct k as [|k]; [simpl; ring|].
  replace (S k - 1)%nat with k by lia.
  rewrite Rpow_mult_distr. simpl. ring.
Qed.

(** A combination of point values that treats the monomials below degree
    [D] as [h] times a combination of derivatives does so for every
    polynomial below degree [D], on the grid of spacing [h]. *)
Lemma lin_poly (A B : list (R * R)) (D : nat) (h : R) (p : vec) :
  (forall k, (k < D)%nat ->
             lin A (fun t => t ^ k) = lin B (fun t => INR k * t ^ (k - 1))) ->
  (length p <= D)%nat ->
  lin A (fun t => peval p (t * h)) = h * lin B (fun t => pderiv p (t * h)).
Proof.
  intros Hm Hp. unfold peval, pderiv.
  rewrite (lin_sum A (fun k t => nth k p 0 * (t * h) ^ k)).
  rewrite (lin_sum B (fun k t => nth k p 0 * (INR k * (t * h) ^ (k - 1)))).
  rewrite <- sum_n_scal.
  apply sum_n_ext. intros k Hk.
  rewrite (lin_ext A _ (fun t => (nth k p 0 * h ^ k) * t ^ k))
    by (intros t; rewrite Rpow_mult_distr; ring).
  rewrite lin_scal, Hm by lia.
  rewrite <- !lin_scal. apply lin_ext. intros t.
  rewrite Rmult_assoc, pow_scale. ring.
Qed.

Lemma lin_stencil (d : vec) (l : nat) (X : R) (g : R -> R) :
  lin (stencil_points d l X) g =
  sum_n (fun j => nth j d 0 * g (X + INR j - INR l)) (length d).
Proof.
  unfold lin, stencil_points, sum_n. rewrite map_map. reflexivity.
Qed.

Lemma nth_sample (n : nat) (h : R) (f : R -> R) (j : nat) :
  (j < n)%nat -> nth j (sample n h f) 0 = f (INR j * h).
Proof. intros Hj. unfold sample. apply nth_map_seq. exact Hj. Qed.

Lemma length_sample (n : nat) (h : R) (f : R -> R) : length (sample n h f) = n.
Proof. unfold sample. rewrite length_map, length_seq. reflexivity. Qed.

(** A row of a circulant matrix that does not wrap, applied to samples. *)
Lemma circulant_row_samples (n : nat) (d : vec) (l : nat) (v : vec)
      (h : R) (f : R -> R) (i : nat) :
  length d = (l + l + 1)%nat -> (l + l < n)%nat -> length v = n ->
  (forall j, nth j v 0 = wrapped d l l n j) ->
  (l <= i)%nat -> (i < n - l)%nat ->
  sum_n (fun t => entry (circulant v) i t * nth t (sample n h f) 0) n =
  lin (stencil_points d l (INR i)) (fun t => f (t * h)).
Proof.
  intros Hd Hn Hv Hw Hli Hil.
  assert (Hpos : (0 < n)%nat) by lia.
  rewrite (circulant_row_dot n Hpos (sample n h f)) by (auto; lia).
  rewrite (sum_n_ext _ (fun s => wrapped d l l n s * xt n (sample n h f) (i + s)))
    by (intros; rewrite Hw; reflexivity).
  rewrite (wrapped_weighted_sum n Hpos d l l) by (auto; lia).
  rewrite lin_stencil, Hd.
  replace (l + l + 1)%nat with (l + (l + 1))%nat by lia.
  rewrite (sum_n_add _ l (l + 1)). rewrite Rplus_comm. f_equal.
  - apply sum_n_ext. intros j Hj. f_equal.
    unfold xt. replace (i + (n - l + j))%nat with ((i - l + j) + 1 * n)%nat by lia.
    rewrite Nat.Div0.mod_add, Nat.mod_small, nth_sample by lia.
    f_equal. f_equal. rewrite plus_INR, minus_INR by lia. ring.
  - apply sum_n_ext. intros j Hj. f_equal.
    rewrite xt_small, nth_sample by lia.
    f_equal. f_equal. rewrite !plus_INR. ring.
Qed.

Ltac expand_lin :=
  cbn [lin stencil_points map seq Rsum fold_right nth length fst snd INR
       Nat.sub Np.neg].

(** Checks [exact_to] degree by degree, for degrees below [D]. *)
Tactic Notation "check_moments" integer(D) :=
  let k := fresh "k" in
  let Hk := fresh "Hk" in
  intros k Hk;
  do D (destruct k as [|k];
        [expand_lin;
         try replace (-0.5) with (- (1 / 2)) by lra;
         try replace 0.5 with (1 / 2) by lra;
         field|]);
  exfalso; simpl in Hk; lia.

(** The stencil of each order reproduces the derivative of every
    monomial up to the degree of the order. *)
Lemma expl_stencil_moments (order : Z) (d : vec) (l r : Z) (X : R) :
  stencil order = Ok (d, l, r) ->
  exact_to (stencil_points d (Z.to_nat l) X) [(1, X)] (Z.to_nat order + 1).
Proof.
  unfold stencil. intros E.
  repeat match type of E with
         | (if ?b then _ else _) = _ => destruct b eqn:?; to_prop
         end;
    try discriminate; subst order; injection E as <- <- <-;
    change (Z.to_nat 1) with 1%nat; change (Z.to_nat 2) with 2%nat;
    change (Z.to_nat 3) with 3%nat; change (Z.to_nat 4) with 4%nat;
    change (Z.to_nat 5) with 5%nat; change (Z.to_nat 6) with 6%nat.
  - check_moments 3.
  - check_moments 5.
  - check_moments 7.
  - check_moments 9.
  - check_moments 11.
  - check_moments 13.
Qed.

(** The dissipation stencil of each order annihilates every monomial
    below the degree of the order. *)
Lemma dissipation_moments (order : Z) (d : vec) (l r : Z) (a X : R) :
  dissipation order = Ok (d, l, r, a) ->
  exact_to (stencil_points d (Z.to_nat l) X) [] (Z.to_nat order).
Proof.
  unfold dissipation. intros E.
  repeat match type of E with
         | (if ?b then _ else _) = _ => destruct b eqn:?; to_prop
         end;
    try discriminate; subst order; injection E as <- <- <- <-;
    change (Z.to_nat 1) with 1%nat; change (Z.to_nat 2) with 2%nat;
    change (Z.to_nat 3) with 3%nat; change (Z.to_nat 4) with 4%nat;
    change (Z.to_nat 5) with 5%nat; change (Z.to_nat 6) with 6%nat.
  - check_moments 2.
  - check_moments 4.
  - check_moments 6.
  - check_moments 8.
  - check_moments 10.
  - check_moments 12.
Qed.

Lemma matvec_entry_sum (n : nat) (A : matrix) (x : vec) (i : nat) :
  shape n n A -> length x = n -> (i < n)%nat ->
  nth i (Np.matvec A x) 0 = sum_n (fun t => entry A i t * nth t x 0) n.
Proof.
  intros HA Hx Hi. rewrite nth_matvec by (destruct HA; lia).
  apply dot_sum; [eauto using shape_row | exact Hx].
Qed.

Lemma lin_nil (g : R -> R) : lin [] g = 0.
Proof. reflexivity. Qed.

Lemma lin_one (c X : R) (g : R -> R) : lin [(c, X)] g = c * g X.
Proof. unfold lin. simpl. ring. Qed.



(** The two stencils of [periodic_imp] agree on the monomials up to
    degree six: [Q] applied to [t^k] is [H] applied to [k t^(k-1)]. *)
Lemma implicit_moments (X : R) :
  exact_to (stencil_points dQ 5 X) (stencil_points dH 5 X) 7.
Proof.
  unfold dQ, dH, h0, h1, h2, h3, h4, h5, q1, q2, q3, q4, q5.
  check_moments 7.
Qed.

Lemma dissipation12_moments (X : R) :
  exact_to (stencil_points dS12 6 X) [] 12.
Proof.
  apply (dissipation_moments 12 dS12 6 6 (1/5544) X). reflexivity.
Qed.

Lemma exact_to_le (A B : list (R * R)) (D D' : nat) :
  (D' <= D)%nat -> exact_to A B D -> exact_to A B D'.
Proof. intros HD H k Hk. apply H. lia. Qed.



Lemma imp_defect_neg : imp_defect < 0.
Proof.
  assert (E : imp_defect =
              -12478470477864743251217951882534103174040518023275536
              / 34470831967820862796880720818225929044355105305336009).
  { unfold imp_defect, dQ, dH, h0, h1, h2, h3, h4, h5, q1, q2, q3, q4, q5.
    expand_lin. field. }
  rewrite E. lra.
Qed.

Lemma imp_defect_everywhere (X h : R) :
  lin (stencil_points dQ 5 X) (fun t => (t * h) ^ 7)
  - h * lin (stencil_points dH 5 X) (fun t => 7 * (t * h) ^ 6)
  = imp_defect * h ^ 7.
Proof.
  unfold imp_defect, dQ, dH, h0, h1, h2, h3, h4, h5, q1, q2, q3, q4, q5.
  expand_lin. field.
Qed.



Lemma matvec_ones_const (n k : nat) (A : matrix) (c : R) :
  shape n k A ->
  (forall i, (i < n)%nat -> sum_n (entry A i) k = c) ->
  Np.matvec A (replicate k 1) = replicate n c.
Proof.
  intros HA H. apply nth_ext with (d := 0) (d' := 0).
  - unfold Np.matvec. rewrite length_map, length_replicate. apply HA.
  - intros i Hi. unfold Np.matvec in Hi. rewrite length_map in Hi.
    assert (Hi' : (i < n)%nat) by (destruct HA; lia).
    rewrite nth_matvec by exact Hi.
    rewrite (dot_sum _ _ k)
      by (rewrite ?length_replicate; eauto using shape_row).
    rewrite (nth_indep (replicate n c) 0 c) by (rewrite length_replicate; lia).
    rewrite nth_replicate, <- (H i Hi'). apply sum_n_ext. intros t Ht.
    unfold entry.
    rewrite (nth_indep (replicate k 1) 0 1) by (rewrite length_replicate; lia).
    rewrite nth_replicate. ring.
Qed.

Lemma Rsum_dH : Rsum dH = 1.
Proof.
  unfold Rsum, dH, h0, h1, h2, h3, h4, h5. simpl. field.
Qed.


